(** * Alconna: the result object (arparma.py) and the alias-table compiler
      (analysis/base.py), as a shallow embedding.

    Python dictionaries whose iteration order is observable (the argument
    dictionaries of an Arparma) are insertion-ordered association lists;
    dictionaries that are only looked up and updated by key (the compiled
    alias tables) are stdpp [gmap]s, and Python sets are [gset]s. *)

From Stdlib Require Import ZArith Ascii String.
From stdpp Require Import base gmap strings list sorting.

Local Open Scope string_scope.
Local Open Scope list_scope.

(** ** Insertion-ordered dictionaries with string keys *)

Module PyDict.

Definition dict (V : Type) : Type := list (string * V).

Section Ops.
Context {V : Type}.

(** [d.get(k)] *)
Fixpoint get (k : string) (d : dict V) : option V :=
  match d with
  | [] => None
  | (k', v) :: d' => if String.eqb k k' then Some v else get k d'
  end.

(** [k in d] *)
Definition contains (k : string) (d : dict V) : bool :=
  match get k d with Some _ => true | None => false end.

(** [d[k] = v]: an existing key keeps its position, a new key goes last *)
Fixpoint set (k : string) (v : V) (d : dict V) : dict V :=
  match d with
  | [] => [(k, v)]
  | (k', v') :: d' =>
      if String.eqb k k' then (k', v) :: d' else (k', v') :: set k v d'
  end.

(** [{**a, **b}] *)
Definition merge (a b : dict V) : dict V :=
  fold_left (fun acc kv => set (fst kv) (snd kv) acc) b a.

(** [d.values()] *)
Definition values (d : dict V) : list V := map snd d.

(** [d.keys()] *)
Definition keys (d : dict V) : list string := map fst d.

(** truth value of a dictionary *)
Definition truthy (d : dict V) : bool :=
  match d with [] => false | _ => true end.
End Ops.

End PyDict.

Import PyDict.

(** ** Python values stored in argument dictionaries *)

Inductive Any : Type :=
| ANone
| AEmpty              (* nepattern's [Empty] sentinel *)
| AEllipsis
| AInt (z : Z)
| AStr (s : string).

(** Modelled from the spec: the result records of model.py, which is not
    among the sources.  An OptionResult holds a value and the dict of
    argument name to parsed value; a SubcommandResult additionally holds the
    results of its nested options.  They are plain records: the fields are
    all they have, and in particular no [get] method. *)
Record OptionResult : Type := mkOptionResult {
  opt_value : Any;
  opt_args : dict Any
}.

Record SubcommandResult : Type := mkSubcommandResult {
  sub_value : Any;
  sub_args : dict Any;
  sub_options : dict OptionResult
}.

(** Exceptions that the modelled functions raise or let through. *)
Inductive Exc : Type :=
| RuntimeError (msg : string)
| IndexError
| TypeError
| BehaveCancelled
| OutBoundsBehave (payload : string)
| UserError (payload : string)
| NoSuchAttribute (attr : string).   (* AttributeError *)

Inductive Result (A : Type) : Type :=
| Ok (a : A)
| Raise (e : Exc).
Arguments Ok {A} a.
Arguments Raise {A} e.

Definition bind {A B : Type} (m : Result A) (f : A -> Result B) : Result B :=
  match m with
  | Ok a => f a
  | Raise e => Raise e
  end.

Notation "'try' x ':=' m 'in' k" := (bind m (fun x => k))
  (at level 10, x name, m at level 100, k at level 200).

(** What [error_info] may hold: the default empty string or an exception. *)
Inductive ErrorInfo : Type :=
| NoError
| ErrExc (e : Exc).

(** ** The Arparma record (arparma.py, lines 23-37) *)

Record Arparma : Type := mkArparma {
  _source : string;
  origin : list string;
  matched : bool;
  error_info : ErrorInfo;
  main_args : dict Any;
  other_args : dict Any;
  options : dict OptionResult;
  subcommands : dict SubcommandResult
}.

(** [components]: [{**self.options, **self.subcommands}]; only its key set is
    ever consulted. *)
Definition in_components (k : string) (r : Arparma) : bool :=
  contains k (options r) || contains k (subcommands r).

(** [all_matched_args]: [{**self.main_args, **self.other_args}] *)
Definition all_matched_args (r : Arparma) : dict Any :=
  merge (main_args r) (other_args r).

(** ** Strings: [str.split('.')] and [str.replace] *)

Definition dot : Ascii.ascii := "."%char.

(** [path.split('.')]: never empty; the text after the last dot is the last
    segment. *)
Fixpoint split_dot (path : string) : list string :=
  match path with
  | EmptyString => [EmptyString]
  | String c s' =>
      if Ascii.eqb c dot then EmptyString :: split_dot s'
      else match split_dot s' with
           | seg :: segs => String c seg :: segs
           | [] => [String c EmptyString]
           end
  end.

(** [replace_from old new skip s]: [s.replace(old, new)] for a non-empty
    [old], scanning left to right; [skip] counts the characters of a match
    that remain to be dropped. *)
Fixpoint replace_from (old new : string) (skip : nat) (s : string) : string :=
  match s with
  | EmptyString => EmptyString
  | String c s' =>
      match skip with
      | S k => replace_from old new k s'
      | O =>
          if String.prefix old s
          then new ++ replace_from old new (String.length old - 1) s'
          else String c (replace_from old new 0 s')
      end
  end.

Definition replace (old new s : string) : string := replace_from old new 0 s.

(** ** Dotted-path lookup: [Arparma.__require__] (lines 127-175) *)

(** The first component of the pair [__require__] returns. *)
Inductive Source : Type :=
| SNone
| SArgs (d : dict Any)
| SOptions (d : dict OptionResult)
| SSubcommands (d : dict SubcommandResult)
| SOpt (o : OptionResult)
| SSub (s : SubcommandResult).

(** The second component: a string, or the boolean that line 148 binds. *)
Inductive Endpoint : Type :=
| EStr (s : string)
| EBool (b : bool).

Definition endpoint_truthy (e : Endpoint) : bool :=
  match e with
  | EStr s => negb (String.eqb s "")
  | EBool b => b
  end.

Definition ambiguous (target : string) : Exc :=
  RuntimeError ("ambiguous name: " ++ target).

(** [a == b] between endpoints: a boolean equals no string. *)
Definition endpoint_eqb (a b : Endpoint) : bool :=
  match a, b with
  | EStr s, EStr t => String.eqb s t
  | EBool x, EBool y => Bool.eqb x y
  | _, _ => false
  end.

(** [_handle_opt] (lines 141-152).  Line 148 reads
    [if _end := _parts.pop(0) == "value":], which binds [_end] to the
    boolean result of the comparison; line 150 then compares that boolean
    with the string ['args']. *)
Definition _handle_opt (_pf : string) (_parts : list string)
    (_opts : dict OptionResult) : Result (Source * Endpoint) :=
  try p := (if String.eqb _pf "options"
        then match _parts with
             | [] => Raise IndexError
             | x :: rest => Ok (x, rest)
             end
        else Ok (_pf, _parts)) in
  let '(_pf, _parts) := p in
  match _parts with
  | [] => Ok (SOptions _opts, EStr _pf)
  | x :: _parts =>
      match get _pf _opts with
      | None => Ok (SOptions _opts, EStr _pf)
      | Some __src =>
          let _end := EBool (String.eqb x "value") in
          if endpoint_truthy _end then Ok (SOpt __src, _end)
          else if endpoint_eqb _end (EStr "args") then
            match _parts with
            | y :: _ => Ok (SArgs (opt_args __src), EStr y)
            | [] => Ok (SOpt __src, _end)
            end
          else Ok (SArgs (opt_args __src), _end)
      end
  end.

Definition first_source (part : string) (r : Arparma) : option Source :=
  if contains part (main_args r) then Some (SArgs (main_args r))
  else if contains part (other_args r) then Some (SArgs (other_args r))
  else if contains part (options r) then Some (SOptions (options r))
  else if contains part (subcommands r) then Some (SSubcommands (subcommands r))
  else None.

(** [getattr(self, part, {})] for the four dictionary attributes *)
Definition getattr_dict (part : string) (r : Arparma) : Source :=
  if String.eqb part "options" then SOptions (options r)
  else if String.eqb part "subcommands" then SSubcommands (subcommands r)
  else if String.eqb part "main_args" then SArgs (main_args r)
  else if String.eqb part "other_args" then SArgs (other_args r)
  else SArgs [].

Definition is_dict_attr (part : string) : bool :=
  String.eqb part "options" || String.eqb part "subcommands"
  || String.eqb part "main_args" || String.eqb part "other_args".

Definition require_sub (prefix : string) (parts : list string) (r : Arparma)
  : Result (Source * Endpoint) :=
  try p := (if String.eqb prefix "subcommands"
        then match parts with
             | [] => Raise IndexError
             | x :: rest => Ok (x, rest)
             end
        else Ok (prefix, parts)) in
  let '(prefix, parts) := p in
  match parts with
  | [] => Ok (SSubcommands (subcommands r), EStr prefix)
  | e :: parts =>
      match get prefix (subcommands r) with
      | None => Ok (SSubcommands (subcommands r), EStr prefix)
      | Some _src =>
          if String.eqb e "value" then Ok (SSub _src, EStr e)
          else if String.eqb e "args" then
            match parts with
            | x :: _ => Ok (SArgs (sub_args _src), EStr x)
            | [] => Ok (SSub _src, EStr e)
            end
          else if String.eqb e "options"
                  && (contains e (sub_options _src)
                      || match parts with [] => true | _ => false end)
          then Raise (ambiguous (prefix ++ "." ++ e))
          else if String.eqb e "options" || contains e (sub_options _src)
          then _handle_opt e parts (sub_options _src)
          else Ok (SArgs (sub_args _src), EStr e)
      end
  end.

Definition __require__ (parts : list string) (r : Arparma)
  : Result (Source * Endpoint) :=
  match parts with
  | [part] =>
      match first_source part r with
      | Some src => Ok (src, EStr part)
      | None =>
          if is_dict_attr part then Ok (getattr_dict part r, EStr "")
          else if String.eqb part "args" then Ok (SArgs (all_matched_args r), EStr "")
          else Ok (SNone, EStr part)
      end
  | [] => Raise IndexError
  | prefix :: parts =>
      if (String.eqb prefix "options" || String.eqb prefix "subcommands")
         && in_components prefix r
      then Raise (ambiguous prefix)
      else if String.eqb prefix "options" || contains prefix (options r)
      then _handle_opt prefix parts (options r)
      else if String.eqb prefix "subcommands" || contains prefix (subcommands r)
      then require_sub prefix parts r
      else
        let prefix := replace "$other" "other_args" (replace "$main" "main_args" prefix) in
        if String.eqb prefix "main_args" || String.eqb prefix "other_args"
        then match parts with
             | x :: _ => Ok (getattr_dict prefix r, EStr x)
             | [] => Raise IndexError
             end
        else Ok (SNone, EStr prefix)
  end.

(** ** [Arparma.query] (lines 185-190) and [Arparma.find] (lines 213-215) *)

(** What a query hands back. *)
Inductive QVal : Type :=
| QAny (a : Any)
| QOpt (o : OptionResult)
| QSub (s : SubcommandResult)
| QArgs (d : dict Any)                 (* MappingProxyType over an args dict *)
| QOpts (d : dict OptionResult)        (* ... over the options dict *)
| QSubs (d : dict SubcommandResult).   (* ... over the subcommands dict *)

(** [d.get(endpoint, default)] on a dictionary with string keys: a boolean
    endpoint equals no key. *)
Definition dict_get {V : Type} (inj : V -> QVal) (d : dict V) (e : Endpoint)
    (default : QVal) : QVal :=
  match e with
  | EStr k => match get k d with Some v => inj v | None => default end
  | EBool _ => default
  end.

Definition query_parts (parts : list string) (default : QVal) (r : Arparma) : Result QVal :=
  try p := __require__ parts r in
  let '(source, endpoint) := p in
  match source with
  | SNone => Ok default
  | SArgs d =>
      if endpoint_truthy endpoint then Ok (dict_get QAny d endpoint default) else Ok (QArgs d)
  | SOptions d =>
      if endpoint_truthy endpoint then Ok (dict_get QOpt d endpoint default) else Ok (QOpts d)
  | SSubcommands d =>
      if endpoint_truthy endpoint then Ok (dict_get QSub d endpoint default) else Ok (QSubs d)
  | SOpt _
  | SSub _ =>
      (* [source.get] on a result record, which has no such method;
         [MappingProxyType] of something that is no mapping *)
      if endpoint_truthy endpoint then Raise (NoSuchAttribute "get")
      else Raise TypeError
  end.

Definition query (path : string) (default : QVal) (r : Arparma) : Result QVal :=
  query_parts (split_dot path) default r.

(** [v != Empty] *)
Definition ne_Empty (v : QVal) : bool :=
  match v with
  | QAny AEmpty => false
  | _ => true
  end.

Definition find (path : string) (r : Arparma) : Result bool :=
  try v := query path (QAny AEmpty) r in
  Ok (ne_Empty v).

(** ** [Arparma.encapsulate_result] (lines 77-94) *)

Definition merge_option_args (acc : dict Any) (vs : list OptionResult) : dict Any :=
  fold_left (fun acc v => merge acc (opt_args v)) vs acc.

(** One round of the loop over the keys of [subcommands] (lines 89-94). *)
Definition merge_subcommand (subs : dict SubcommandResult) (acc : dict Any)
    (k : string) : dict Any :=
  match get k subs with
  | None => acc
  | Some v =>
      let acc := merge acc (sub_args v) in
      if truthy (sub_options v)
      then merge_option_args acc (values (sub_options v))
      else acc
  end.

Definition encapsulate_result (main_args0 : dict Any)
    (options0 : dict OptionResult) (subcommands0 : dict SubcommandResult)
    (r : Arparma) : Arparma :=
  let other1 := merge_option_args (other_args r) (values options0) in
  let other2 := fold_left (merge_subcommand subcommands0) (keys subcommands0) other1 in
  {| _source := _source r;
     origin := origin r;
     matched := matched r;
     error_info := error_info r;
     main_args := main_args0;
     other_args := other2;
     options := options0;
     subcommands := subcommands0 |}.

(** ** Behaviors (components/behavior.py) and [Arparma.execute] (lines 104-116) *)

(** A behavior: its [requires] and its [operate], which works on the Arparma
    in place and either returns or raises. *)
#[warnings="-register-all"]
Inductive Behavior : Type :=
| mkBehavior (name : string) (requires : list Behavior)
    (operate : Arparma -> Arparma * option Exc).

Definition bname (b : Behavior) : string :=
  match b with mkBehavior n _ _ => n end.

Definition operate (b : Behavior) : Arparma -> Arparma * option Exc :=
  match b with mkBehavior _ _ f => f end.

(** [requirement_handler] (behavior.py, lines 30-38): the required behaviors,
    flattened depth first, then the behavior itself.  The cache in front of it
    does not change what it returns. *)
Fixpoint requirement_handler (b : Behavior) : list Behavior :=
  match b with
  | mkBehavior _ reqs _ => flat_map requirement_handler reqs ++ [b]
  end.

(** [_fail] (lines 124-125): a fresh Arparma; the fields not passed take the
    dataclass defaults. *)
Definition _fail (exc : ErrorInfo) (r : Arparma) : Arparma :=
  {| _source := _source r;
     origin := origin r;
     matched := false;
     error_info := exc;
     main_args := [];
     other_args := [];
     options := [];
     subcommands := [] |}.

(** How the loop of lines 109-115 is left: it runs to its end (line 116
    then returns [self]), line 115 returns the failed result, or an exception
    that no handler names goes through. *)
Inductive LoopExit : Type :=
| Finished (r : Arparma)
| Failed (r : Arparma)
| Propagated (e : Exc).

(** The loop of lines 109-115.  Besides the exit it gives the names of the
    behaviors whose [operate] was entered, in order. *)
Fixpoint run_behaviors (bs : list Behavior) (r : Arparma)
  : LoopExit * list string :=
  match bs with
  | [] => (Finished r, [])
  | b :: bs' =>
      let '(r', signal) := operate b r in
      match signal with
      | None
      | Some BehaveCancelled =>
          let '(res, ran) := run_behaviors bs' r' in (res, bname b :: ran)
      | Some (OutBoundsBehave p) =>
          (Failed (_fail (ErrExc (OutBoundsBehave p)) r'), [bname b])
      | Some e => (Propagated e, [bname b])
      end
  end.

Definition returned (x : LoopExit * list string) : Result Arparma * list string :=
  match fst x with
  | Finished r => (Ok r, snd x)
  | Failed r => (Ok r, snd x)
  | Propagated e => (Raise e, snd x)
  end.

(** [execute]: [source_behaviors] is [self.source.behaviors], looked up in
    the command registry. *)
Definition exc_behaviors (source_behaviors : list Behavior)
    (behaviors : option (list Behavior)) : list Behavior :=
  flat_map requirement_handler
    (drop 1 source_behaviors ++ default [] behaviors).

Definition execute (source_behaviors : list Behavior)
    (behaviors : option (list Behavior)) (r : Arparma)
  : Result Arparma * list string :=
  returned (run_behaviors (exc_behaviors source_behaviors behaviors) r).

(** ** [Arparma.call] (lines 118-122) *)




(** ** The node model read by the compiler (analysis/base.py) *)

(** Modelled from the spec: the nodes of base.py of the package (not among
    the sources), with the attributes the compiler reads.  [aliases] is a set
    of strings that includes the name; [requires] is the ordered list of
    prefix words; [priority] is an integer. *)
Record Option : Type := mkOption {
  name : string;
  aliases : gset string;
  requires : list string;
  priority : Z;
  separators : list string
}.

(** [range(n)] *)
Inductive PyRange : Type :=
| range (stop : nat).

(** An entry of an alias table: a list of options, a requirement marker, or
    a subcommand.  The table holds the subcommand object itself; the model
    names it by its position in [alconna.options], where that object lives,
    so that what the compiler does to it afterwards is seen through the
    table as well. *)
Inductive Param : Type :=
| PList (li : list Option)
| PSentence (sentence_name : string)
| PSubcommand (position : nat).

(** Modelled from the spec: a Subcommand owns its options and the derived
    [sub_params] alias table; [nargs] tells whether it has args of its own;
    [sub_part_len] is [None] while the attribute has not been assigned. *)
Record Subcommand : Type := mkSubcommand {
  s_name : string;
  s_requires : list string;
  s_separators : list string;
  nargs : nat;
  s_options : list Option;
  sub_params : gmap string Param;
  sub_part_len : option PyRange
}.

Inductive Node : Type :=
| NOption (o : Option)
| NSubcommand (s : Subcommand).

Definition node_requires (n : Node) : list string :=
  match n with
  | NOption o => requires o
  | NSubcommand s => s_requires s
  end.

Definition node_separators (n : Node) : list string :=
  match n with
  | NOption o => separators o
  | NSubcommand s => s_separators s
  end.

(** Modelled from the spec: the analyser of analysis/analyser.py (not among
    the sources), with the attributes that [default_params_parser] reads or
    writes.  [part_len] is [None] while the attribute has not been
    assigned. *)
Record Analyser : Type := mkAnalyser {
  alconna_options : list Node;
  command_params : gmap string Param;
  param_ids : gset string;
  an_separators : list string;
  default_separate : bool;
  need_main_args : bool;
  part_len : option PyRange
}.

(** ** [li.sort(key=lambda x: x.priority, reverse=True)] *)

(** Python's sort is stable, also with [reverse=True]: elements with equal
    keys keep their order.  [insert_desc o l] puts [o] behind every element
    whose priority is at least its own. *)
Fixpoint insert_desc (o : Option) (l : list Option) : list Option :=
  match l with
  | [] => [o]
  | x :: l' =>
      if (priority x <? priority o)%Z then o :: x :: l'
      else x :: insert_desc o l'
  end.

Definition sort_desc (l : list Option) : list Option :=
  fold_left (fun acc o => insert_desc o acc) l [].

(** ** [_compile_opts] (lines 17-23) *)

(** One round of the loop over [option.aliases]: what [data] holds under
    the alias afterwards.  A non-empty list is appended to and sorted again;
    anything else (no entry, an empty list, a Sentence, a Subcommand) is
    replaced by a new one-element list. *)
Definition new_entry (option : Option) (old : Datatypes.option Param) : Param :=
  match old with
  | Some (PList (x :: li)) => PList (sort_desc ((x :: li) ++ [option]))
  | _ => PList [option]
  end.

Definition compile_alias (option : Option) (data : gmap string Param)
    (alias : string) : gmap string Param :=
  <[alias := new_entry option (data !! alias)]> data.

Definition _compile_opts (option : Option) (data : gmap string Param)
  : gmap string Param :=
  fold_left (compile_alias option) (elements (aliases option)) data.

(** ** [default_params_parser] (lines 26-53) *)

(** [data.setdefault(k, Sentence(name=k))] for every [k] of [ks] *)
Definition setdefault_sentence (data : gmap string Param) (k : string)
  : gmap string Param :=
  match data !! k with
  | Some _ => data
  | None => <[k := PSentence k]> data
  end.

Definition setdefault_sentences (ks : list string) (data : gmap string Param)
  : gmap string Param :=
  fold_left setdefault_sentence ks data.

Definition list_truthy {A : Type} (l : list A) : bool :=
  match l with [] => false | _ => true end.

(** The state of the loop over a subcommand's options (lines 36-42). *)
Record SubLoop : Type := mkSubLoop {
  sl_params : gmap string Param;
  sl_require_len : nat;
  sl_ids : gset string
}.

Definition sub_option_step (st : SubLoop) (sub_opts : Option) : SubLoop :=
  let data := _compile_opts sub_opts (sl_params st) in
  let '(data, len) :=
    if list_truthy (requires sub_opts)
    then (setdefault_sentences (requires sub_opts) data,
          Nat.max (length (requires sub_opts)) (sl_require_len st))
    else (data, sl_require_len st) in
  {| sl_params := data;
     sl_require_len := len;
     sl_ids := sl_ids st ∪ aliases sub_opts |}.

(** The state of the outer loop: the analyser, [require_len], and the nodes
    already visited, as the loop left them. *)
Record Loop : Type := mkLoop {
  lp_analyser : Analyser;
  lp_require_len : nat;
  lp_done : list Node
}.

(** Lines 29-43: the branch on the kind of node.  Gives the node as the
    loop leaves it, the alias table and the ids.  The entries of
    [alconna.options] are taken to be distinct objects, so that what the
    loop writes into one subcommand is seen at its position only; a
    subcommand object listed twice would be compiled twice into the one
    [sub_params] it has, which this does not follow. *)
Definition register_node (position : nat) (opts : Node)
    (cp : gmap string Param) (ids : gset string)
  : Node * gmap string Param * gset string :=
  match opts with
  | NOption o => (opts, _compile_opts o cp, ids ∪ aliases o)
  | NSubcommand s =>
      let cp := <[s_name s := PSubcommand position]> cp in
      let ids := ids ∪ {[ s_name s ]} in
      let st := fold_left sub_option_step (s_options s)
                  {| sl_params := sub_params s; sl_require_len := 0; sl_ids := ids |} in
      let s' :=
        {| s_name := s_name s;
           s_requires := s_requires s;
           s_separators := s_separators s;
           nargs := nargs s;
           s_options := s_options s;
           sub_params := sl_params st;
           sub_part_len :=
             Some (range (length (s_options s)
                          + (if Nat.eqb (nargs s) 0 then 0 else 1)
                          + sl_require_len st)) |} in
      (NSubcommand s', cp, sl_ids st)
  end.

(** One round of the loop of line 28. *)
Definition parser_step (st : Loop) (opts : Node) : Loop :=
  let an := lp_analyser st in
  let '(node, cp, ids) :=
    register_node (length (lp_done st)) opts (command_params an) (param_ids an) in
  let sep_ok :=
    forallb (fun x => bool_decide (x ∈ an_separators an)) (node_separators opts) in
  let '(ids, len, cp) :=
    if list_truthy (node_requires opts)
    then (ids ∪ list_to_set (node_requires opts),
          Nat.max (length (node_requires opts)) (lp_require_len st),
          setdefault_sentences (node_requires opts) cp)
    else (ids, lp_require_len st, cp) in
  {| lp_analyser :=
       {| alconna_options := alconna_options an;
          command_params := cp;
          param_ids := ids;
          an_separators := an_separators an;
          default_separate := if sep_ok then default_separate an else false;
          need_main_args := need_main_args an;
          part_len :=
            Some (range (length (alconna_options an)
                         + (if need_main_args an then 1 else 0)
                         + len)) |};
     lp_require_len := len;
     lp_done := lp_done st ++ [node] |}.

Definition parser_loop (an : Analyser) : Loop :=
  fold_left parser_step (alconna_options an)
    {| lp_analyser := an; lp_require_len := 0; lp_done := [] |}.

Definition default_params_parser (analyser : Analyser) : Analyser :=
  let st := parser_loop analyser in
  let an := lp_analyser st in
  {| alconna_options := lp_done st;
     command_params := command_params an;
     param_ids := param_ids an;
     an_separators := an_separators an;
     default_separate := default_separate an;
     need_main_args := need_main_args an;
     part_len := part_len an |}.

(** ** Notions used to state the properties *)

(** A path segment: a string without a dot. *)
Fixpoint no_dot (s : string) : bool :=
  match s with
  | EmptyString => true
  | String c s' => negb (Ascii.eqb c dot) && no_dot s'
  end.

(** The words a one-segment path cannot use as a plain name. *)
Definition is_reserved (nm : string) : bool :=
  is_dict_attr nm || String.eqb nm "args".

(** The bare-name rule of the specification: [main_args] first, then
    [other_args], then [options], then [subcommands]; the default when none
    of them has the name. *)
Definition bare_lookup (nm : string) (default : QVal) (r : Arparma) : QVal :=
  match get nm (main_args r) with
  | Some v => QAny v
  | None =>
      match get nm (other_args r) with
      | Some v => QAny v
      | None =>
          match get nm (options r) with
          | Some o => QOpt o
          | None =>
              match get nm (subcommands r) with
              | Some s => QSub s
              | None => default
              end
          end
      end
  end.

(** A Python dictionary has each key once. *)
Definition wf_dict {V : Type} (d : dict V) : Prop := NoDup (keys d).

(** The args dicts that [encapsulate_result] merges, in merge order: those of
    the options, then for each subcommand its own followed by those of the
    options nested directly in it. *)
Definition args_sequence (options0 : dict OptionResult)
    (subcommands0 : dict SubcommandResult) : list (dict Any) :=
  map opt_args (values options0)
  ++ flat_map (fun v => sub_args v :: map opt_args (values (sub_options v)))
       (values subcommands0).

(** The union of a sequence of dicts over a base, later ones overwriting. *)
Definition union_all (base : dict Any) (ds : list (dict Any)) : dict Any :=
  fold_left merge ds base.

(** The value of [k] in the last dict of [ds] that has [k], [acc] if none
    has it. *)
Definition hit_from (k : string) (acc : option Any) (ds : list (dict Any)) : option Any :=
  fold_left (fun acc d => match get k d with Some v => Some v | None => acc end)
    ds acc.

Definition last_hit (k : string) (ds : list (dict Any)) : option Any :=
  hit_from k None ds.

(** [declares a o]: [a] is one of the aliases of [o]. *)
Definition declares (a : string) (o : Option) : bool :=
  bool_decide (a ∈ aliases o).

(** Descending priority. *)
Definition prio_ge (x y : Option) : Prop := (priority y <= priority x)%Z.

Definition has_priority (p : Z) (o : Option) : bool := (priority o =? p)%Z.

(** The invariant of an alias table with respect to [regs], the options
    compiled into it so far in registration order: an alias some option of
    [regs] declares is mapped to the list of exactly those options, sorted;
    an alias mapped to anything else is declared by none of them. *)
Definition alias_inv (regs : list Option) (data : gmap string Param) : Prop :=
  ∀ a : string,
    match data !! a with
    | Some (PList li) => li = sort_desc (List.filter (declares a) regs)
    | _ => List.filter (declares a) regs = []
    end.

(** The longest requirement chain among [l], 0 for none. *)
Definition max_requires {A : Type} (req : A -> list string) (l : list A) : nat :=
  fold_right (fun x m => Nat.max (length (req x)) m) 0 l.

(** The bound the specification gives for [part_len]. *)
Definition part_len_bound (an : Analyser) : PyRange :=
  range (length (alconna_options an)
         + (if need_main_args an then 1 else 0)
         + max_requires node_requires (alconna_options an)).

Definition sub_part_len_bound (s : Subcommand) : PyRange :=
  range (length (s_options s)
         + (if Nat.eqb (nargs s) 0 then 0 else 1)
         + max_requires requires (s_options s)).

(** [w] names a top-level node: an alias of an option or the name of a
    subcommand. *)
Definition names_node (w : string) (n : Node) : Prop :=
  match n with
  | NOption o => w ∈ aliases o
  | NSubcommand s => w = s_name s
  end.

(** The table as line 46 finds it for the node at [position]: after the
    nodes before it and its own branch of lines 29-43. *)
Definition table_before_requires (an : Analyser) (position : nat)
  : option (gmap string Param) :=
  match alconna_options an !! position with
  | None => None
  | Some node =>
      let st := fold_left parser_step (take position (alconna_options an))
                  {| lp_analyser := an; lp_require_len := 0; lp_done := [] |} in
      let '(_, cp, _) :=
        register_node position node
          (command_params (lp_analyser st)) (param_ids (lp_analyser st)) in
      Some cp
  end.

(** How the compiler leaves a subcommand [s], as [s']: the declaration is
    untouched, [sub_part_len] is the bound, and every requirement word of an
    option of [s] has an entry in [sub_params], a Sentence of that name when
    the word had no entry before and is no alias of an option of [s]. *)
Definition sub_compiled (s s' : Subcommand) : Prop :=
  s_name s' = s_name s
  /\ s_options s' = s_options s
  /\ sub_part_len s' = Some (sub_part_len_bound s)
  /\ forall o w, o ∈ s_options s -> w ∈ requires o ->
       is_Some (sub_params s' !! w)
       /\ (sub_params s !! w = None ->
           (forall o', o' ∈ s_options s -> w ∉ aliases o') ->
           sub_params s' !! w = Some (PSentence w)).

Definition node_compiled (before after : Node) : Prop :=
  match before with
  | NOption o => after = NOption o
  | NSubcommand s => exists s', after = NSubcommand s' /\ sub_compiled s s'
  end.

(** ** Concrete inputs *)

Definition foo_option : OptionResult :=
  {| opt_value := AInt 1; opt_args := [("x", AInt 5)] |}.

Definition foo_subcommand : SubcommandResult :=
  {| sub_value := AInt 2;
     sub_args := [("y", AInt 6)];
     sub_options := [("opt", foo_option)] |}.

(** The result of a command that declares an option and a subcommand both
    named [foo], both matched. *)
Definition both_foo : Arparma :=
  {| _source := "demo::cmd";
     origin := ["cmd"; "foo"];
     matched := true;
     error_info := NoError;
     main_args := [];
     other_args := [("x", AInt 5); ("y", AInt 6)];
     options := [("foo", foo_option)];
     subcommands := [("foo", foo_subcommand)] |}.

(** A result whose [main_args] has the empty string as a key. *)
Definition empty_key : Arparma :=
  {| _source := "demo::cmd";
     origin := ["cmd"];
     matched := true;
     error_info := NoError;
     main_args := [("", AInt 1)];
     other_args := [];
     options := [];
     subcommands := [] |}.

(** A result that stores the [Empty] sentinel under [bar]. *)
Definition stores_empty : Arparma :=
  {| _source := "demo::cmd";
     origin := ["cmd"];
     matched := true;
     error_info := NoError;
     main_args := [("bar", AEmpty)];
     other_args := [];
     options := [];
     subcommands := [] |}.

(** A result with an option [foo] and a subcommand [bar]. *)
Definition foo_and_bar : Arparma :=
  {| _source := "demo::cmd";
     origin := ["cmd"; "foo"; "bar"];
     matched := true;
     error_info := NoError;
     main_args := [];
     other_args := [("x", AInt 5); ("y", AInt 6)];
     options := [("foo", foo_option)];
     subcommands := [("bar", foo_subcommand)] |}.

(** Behaviors: one that cancels itself, one that gives up on the result, and
    one that records its run in [main_args]. *)
Definition cancelling : Behavior :=
  mkBehavior "cancelling" [] (fun r => (r, Some BehaveCancelled)).

Definition failing : Behavior :=
  mkBehavior "failing" [] (fun r => (r, Some (OutBoundsBehave "out of bounds"))).

Definition marking : Behavior :=
  mkBehavior "marking" []
    (fun r =>
       ({| _source := _source r;
           origin := origin r;
           matched := matched r;
           error_info := error_info r;
           main_args := set "marked" (AInt 1) (main_args r);
           other_args := other_args r;
           options := options r;
           subcommands := subcommands r |}, None)).


(** A matched result without arguments. *)
Definition no_args : Arparma :=
  {| _source := "demo::cmd";
     origin := ["cmd"];
     matched := true;
     error_info := NoError;
     main_args := [];
     other_args := [];
     options := [];
     subcommands := [] |}.

(** A result that already has an entry in [other_args]. *)
Definition has_other : Arparma :=
  {| _source := "demo::cmd";
     origin := ["cmd"];
     matched := true;
     error_info := NoError;
     main_args := [];
     other_args := [("x", AInt 1)];
     options := [];
     subcommands := [] |}.

(** Options [--verbose|-v] (priority 0) and [--version|-v] (priority 2). *)
Definition verbose : Option :=
  {| name := "--verbose"; aliases := {[ "--verbose"; "-v" ]};
     requires := []; priority := 0; separators := [" "] |}.

Definition version : Option :=
  {| name := "--version"; aliases := {[ "--version"; "-v" ]};
     requires := []; priority := 2; separators := [" "] |}.

(** [--foo] requires the word [bar]; the option [bar] is declared after it. *)
Definition foo_requires_bar : Option :=
  {| name := "--foo"; aliases := {[ "--foo" ]};
     requires := ["bar"]; priority := 0; separators := [" "] |}.

Definition bar_option : Option :=
  {| name := "bar"; aliases := {[ "bar" ]};
     requires := []; priority := 0; separators := [" "] |}.

Definition late_alias : Analyser :=
  {| alconna_options := [NOption foo_requires_bar; NOption bar_option];
     command_params := ∅;
     param_ids := ∅;
     an_separators := [" "];
     default_separate := true;
     need_main_args := false;
     part_len := None |}.

(** A subcommand [set] that requires [perm], with the option [--foo] that
    requires [bar]. *)
Definition set_subcommand : Subcommand :=
  {| s_name := "set";
     s_requires := ["perm"];
     s_separators := [" "];
     nargs := 2;
     s_options := [foo_requires_bar];
     sub_params := ∅;
     sub_part_len := None |}.

Definition with_subcommand : Analyser :=
  {| alconna_options := [NSubcommand set_subcommand; NOption verbose];
     command_params := ∅;
     param_ids := ∅;
     an_separators := [" "];
     default_separate := true;
     need_main_args := true;
     part_len := None |}.

(** ** More of arparma.py: [query_with], [__getitem__], [__getattr__] *)

(** Truth value of a stored value.  The [Empty] sentinel and [Ellipsis] are
    objects without a length, hence true. *)
Definition any_truthy (v : Any) : bool :=
  match v with
  | ANone => false
  | AEmpty => true
  | AEllipsis => true
  | AInt z => negb (z =? 0)%Z
  | AStr s => negb (String.eqb s "")
  end.

Definition qval_truthy (v : QVal) : bool :=
  match v with
  | QAny a => any_truthy a
  | QOpt _ => true
  | QSub _ => true
  | QArgs d => truthy d
  | QOpts d => truthy d
  | QSubs d => truthy d
  end.

(** Lines 209-211: the first value of [all_matched_args] of the type, the
    default when the list is empty (the IndexError is suppressed). *)
Definition first_of_type (arg_type : QVal -> bool) (default : QVal)
    (r : Arparma) : QVal :=
  match List.filter (fun v => arg_type (QAny v)) (values (all_matched_args r)) with
  | v :: _ => QAny v
  | [] => default
  end.

(** [query_with] (lines 205-211).  [arg_type] stands for the test
    [isinstance(_, arg_type)]; an empty path is as false as [None]. *)
Definition query_with (arg_type : QVal -> bool) (path : Datatypes.option string)
    (default : QVal) (r : Arparma) : Result QVal :=
  match path with
  | Some p =>
      if negb (String.eqb p "")
      then try res := query p (QAny AEmpty) r in
           Ok (if arg_type res then res else default)
      else Ok (first_of_type arg_type default r)
  | None => Ok (first_of_type arg_type default r)
  end.

(** The argument of [__getitem__]: a path or a type. *)
Inductive Item : Type :=
| ItemStr (s : string)
| ItemType (arg_type : QVal -> bool).

(** [__getitem__] (lines 235-239): without a truthy [data] the function
    runs to its end and gives [None]. *)
Definition __getitem__ (item : Item) (r : Arparma) : Result QVal :=
  match item with
  | ItemStr s => query s (QAny ANone) r
  | ItemType t =>
      try data := query_with t None (QAny ANone) r in
      Ok (if qval_truthy data then data else QAny ANone)
  end.

(** The names for which attribute access on an Arparma never reaches
    [__getattr__]: the fields, properties and methods of the class body,
    and (with margin) every name that starts with an underscore, which
    covers [_source], [_clr], [_fail] and what [object], [Generic] and the
    dataclass machinery define. *)
Definition arparma_attributes : list string :=
  ["origin"; "matched"; "header_match"; "error_data"; "error_info";
   "main_args"; "other_args"; "options"; "subcommands";
   "source"; "header"; "header_matched"; "header_result"; "non_component";
   "components"; "all_matched_args"; "get_duplication"; "encapsulate_result";
   "behave_cancel"; "behave_fail"; "execute"; "call"; "query"; "query_with";
   "find"].

Definition attribute_name (nm : string) : bool :=
  String.prefix "_" nm || existsb (String.eqb nm) arparma_attributes.

(** [__getattr__] (lines 241-242), which Python calls for a name that is no
    attribute of the object ([attribute_name] false): [dict.get] gives
    [None] for a missing key. *)
Definition __getattr__ (item : string) (r : Arparma) : Any :=
  match get item (all_matched_args r) with
  | Some v => v
  | None => ANone
  end.

(** What [__require__] may give back: never a result record together with a
    false endpoint, and no error other than the ambiguity error. *)
Definition sound_lookup (x : Result (Source * Endpoint)) : Prop :=
  match x with
  | Ok (SOpt _, ep) | Ok (SSub _, ep) => endpoint_truthy ep = true
  | Ok _ => True
  | Raise e => exists t, e = ambiguous t
  end.

(** The sources that are result records, not dicts. *)
Definition result_record (src : Source) : bool :=
  match src with
  | SOpt _ | SSub _ => true
  | _ => false
  end.

(** ** More of behavior.py *)

Definition requires_of (b : Behavior) : list Behavior :=
  match b with mkBehavior _ reqs _ => reqs end.

(** [needs b x]: [x] is [b] or is reached from [b] through [requires]. *)
Inductive needs : Behavior -> Behavior -> Prop :=
| needs_self (b : Behavior) : needs b b
| needs_step (b r x : Behavior) :
    r ∈ requires_of b -> needs r x -> needs b x.



(** ** More of analysis/base.py: what the compiler registers *)

(** The ids a top-level node contributes to [param_ids]: the aliases of an
    option; the name of a subcommand and the aliases of its options; and the
    requirement words of the node itself. *)
Definition node_ids (n : Node) : gset string :=
  match n with
  | NOption o => aliases o
  | NSubcommand s => {[ s_name s ]} ∪ ⋃ (aliases <$> s_options s)
  end ∪ list_to_set (node_requires n).

(** The keys a top-level node writes in [command_params]. *)
Definition node_keys (n : Node) : gset string :=
  match n with
  | NOption o => aliases o
  | NSubcommand s => {[ s_name s ]}
  end ∪ list_to_set (node_requires n).

(** Line 44: the separators of the node are among the analyser's. *)
Definition separators_within (seps : list string) (n : Node) : bool :=
  forallb (fun x => bool_decide (x ∈ seps)) (node_separators n).

(** The options among the top-level nodes, in order. *)
Definition top_options (nodes : list Node) : list Option :=
  flat_map (fun n => match n with NOption o => [o] | NSubcommand _ => [] end) nodes.

(** The invariant of one table entry with respect to the options [regs]:
    a list holds exactly the options of [regs] that declare the alias,
    sorted; any other entry means none declares it. *)
Definition alias_entry (regs : list Option) (a : string)
    (e : Datatypes.option Param) : Prop :=
  match e with
  | Some (PList li) => li = sort_desc (List.filter (declares a) regs)
  | _ => List.filter (declares a) regs = []
  end.

(** ** components/output.py: the manager of output actions (lines 24-71) *)

(** [command or "$global"] *)
Definition command_key (command : Datatypes.option string) : string :=
  match command with
  | Some c => if String.eqb c "" then "$global" else c
  | None => "$global"
  end.

(** [d.pop(k)] for a key that is present: the dict without it. *)
Definition dict_remove {V : Type} (k : string) (d : dict V) : dict V :=
  List.filter (fun kv => negb (String.eqb k (fst kv))) d.

(** Errors of the manager. *)
Inductive OutputError : Type :=
| KeyError (command : Datatypes.option string)
| AttributeError.

Section Output.
(** [A]: the callables that send a text; [G]: the generators of a text. *)
Context {A G : Type}.

(** An OutputAction (lines 15-21): the action inherited from ArgAction, the
    generator, and the cache of what was output. *)
Record OutputAction : Type := mkOutputAction {
  action : A;
  generator : G;
  oa_cache : dict string
}.

Record OutputActionManager : Type := mkOutputActionManager {
  mgr_cache : dict A;
  outputs : dict OutputAction;
  send_action : A
}.

(** [get] (lines 49-51) *)
Definition output_get (command : Datatypes.option string)
    (m : OutputActionManager) : Datatypes.option OutputAction :=
  get (command_key command) (outputs m).

(** [set] (lines 53-62): the manager afterwards and the action returned. *)
Definition output_set (gen : G) (command : Datatypes.option string)
    (m : OutputActionManager) : OutputActionManager * OutputAction :=
  let command := command_key command in
  match get command (outputs m) with
  | Some old =>
      let new := {| action := action old; generator := gen;
                    oa_cache := oa_cache old |} in
      ({| mgr_cache := mgr_cache m;
          outputs := set command new (outputs m);
          send_action := send_action m |}, new)
  | None =>
      match get command (mgr_cache m) with
      | Some cached =>
          let new := {| action := cached; generator := gen; oa_cache := [] |} in
          ({| mgr_cache := dict_remove command (mgr_cache m);
              outputs := set command new (outputs m);
              send_action := send_action m |}, new)
      | None =>
          let new := {| action := send_action m; generator := gen;
                        oa_cache := [] |} in
          ({| mgr_cache := mgr_cache m;
              outputs := set command new (outputs m);
              send_action := send_action m |}, new)
      end
  end.

(** [set_action] (lines 64-71) *)
Definition set_action (act : A) (command : Datatypes.option string)
    (m : OutputActionManager) : OutputActionManager :=
  match command with
  | None =>
      {| mgr_cache := mgr_cache m; outputs := outputs m; send_action := act |}
  | Some c =>
      if String.eqb c "$global"
      then {| mgr_cache := mgr_cache m; outputs := outputs m; send_action := act |}
      else
        match get c (outputs m) with
        | Some cmd =>
            {| mgr_cache := mgr_cache m;
               outputs := set c {| action := act; generator := generator cmd;
                                   oa_cache := oa_cache cmd |} (outputs m);
               send_action := send_action m |}
        | None =>
            {| mgr_cache := set c act (mgr_cache m);
               outputs := outputs m;
               send_action := send_action m |}
        end
  end.

(** [send] (lines 39-47).  [handle] stands for [OutputAction.handle], whose
    result is merged into the cache of the action.  On line 46 the name
    [action] is still [None]: the attribute access [action.cache] fails
    before [self.set] is called. *)
Definition send (handle : OutputAction -> bool -> dict string)
    (command : Datatypes.option string) (gen : Datatypes.option G)
    (raise_exception : bool) (m : OutputActionManager)
  : OutputActionManager + OutputError :=
  match output_get command m with
  | Some old =>
      let act := match gen with
                 | Some g => {| action := action old; generator := g;
                                oa_cache := oa_cache old |}
                 | None => old
                 end in
      let act := {| action := action act; generator := generator act;
                    oa_cache := merge (oa_cache act) (handle act raise_exception) |} in
      inl {| mgr_cache := mgr_cache m;
             outputs := set (command_key command) act (outputs m);
             send_action := send_action m |}
  | None =>
      match gen with
      | Some _ => inr AttributeError
      | None => inr (KeyError command)
      end
  end.

End Output.

Arguments OutputAction : clear implicits.
Arguments OutputActionManager : clear implicits.

(** ** components/visitor.py: the node visitor *)

Inductive NodeType : Type :=
| TCommand
| TSubcommand
| TOption.

(** [_BaseNode] (lines 14-43).  Kept are the id, the type, the name, the
    aliases that the visitor records for an option, and the ids of the sub
    nodes; the other attributes are copies of attributes of the target
    (dest, help text, separators, parameters) and play no part in what the
    visitor does. *)
Record BaseNode : Type := mkBaseNode {
  node_id : nat;
  node_type : NodeType;
  node_name : string;
  node_aliases : Datatypes.option (gset string);
  sub_nodes : list nat
}.

Inductive VisitError : Type :=
| DuplicateCommand (target : string)
| AmbiguousName (target : string)     (* the ValueError of line 112 *)
| MissingNode (key : nat)             (* KeyError of [node_map[...]] *)
| NotInList (label : string).         (* ValueError of [name_list.index] *)

(** [node_map]: a dict with integer keys, in insertion order. *)
Fixpoint iget (k : nat) (d : list (nat * BaseNode)) : Datatypes.option BaseNode :=
  match d with
  | [] => None
  | (k', v) :: d' => if Nat.eqb k k' then Some v else iget k d'
  end.

Fixpoint iset (k : nat) (v : BaseNode) (d : list (nat * BaseNode))
  : list (nat * BaseNode) :=
  match d with
  | [] => [(k, v)]
  | (k', v') :: d' =>
      if Nat.eqb k k' then (k', v) :: d' else (k', v') :: iset k v d'
  end.

(** [max(self.node_map)]: the largest key (the map is never empty). *)
Definition max_key (d : list (nat * BaseNode)) : nat :=
  fold_right Nat.max 0 (map fst d).

(** [name.lstrip('-')] *)
Fixpoint lstrip_dash (s : string) : string :=
  match s with
  | EmptyString => EmptyString
  | String c s' => if Ascii.eqb c "-"%char then lstrip_dash s' else s
  end.

(** [l.index(x)] *)
Fixpoint index_of (x : string) (l : list string) : Datatypes.option nat :=
  match l with
  | [] => None
  | y :: l' => if String.eqb x y then Some 0 else S <$> index_of x l'
  end.

Record Visitor : Type := mkVisitor {
  name_list : list string;
  node_map : list (nat * BaseNode)
}.

Definition vbind {X Y : Type} (m : X + VisitError) (f : X -> Y + VisitError)
  : Y + VisitError :=
  match m with
  | inl x => f x
  | inr e => inr e
  end.

(** The three statements that follow every duplicate check:
    [name_list.append(label)], [new_id = max(node_map) + 1],
    [node_map[new_id] = _BaseNode(new_id, ...)].  Gives the visitor and the
    new id. *)
Definition register (v : Visitor) (label : string) (mk : nat -> BaseNode)
  : Visitor * nat :=
  let new_id := max_key (node_map v) + 1 in
  ({| name_list := name_list v ++ [label];
      node_map := iset new_id (mk new_id) (node_map v) |}, new_id).

(** [node_map[parent].sub_nodes.append(child)] *)
Definition append_sub (parent child : nat) (v : Visitor) : Visitor + VisitError :=
  match iget parent (node_map v) with
  | None => inr (MissingNode parent)
  | Some n =>
      inl {| name_list := name_list v;
             node_map :=
               iset parent
                 {| node_id := node_id n; node_type := node_type n;
                    node_name := node_name n; node_aliases := node_aliases n;
                    sub_nodes := sub_nodes n ++ [child] |}
                 (node_map v) |}
  end.

(** A [for] loop that an exception leaves. *)
Fixpoint visit_loop {X : Type} (step : Visitor -> X -> Visitor + VisitError)
    (l : list X) (v : Visitor) : Visitor + VisitError :=
  match l with
  | [] => inl v
  | x :: l' => vbind (step v x) (visit_loop step l')
  end.

(** Lines 75-83: one option of a subcommand. *)
Definition visit_sub_option (real_name : string) (new_id : nat) (v : Visitor)
    (sub_node : Option) : Visitor + VisitError :=
  let real_sub_name := lstrip_dash (name sub_node) in
  let label := ("subcommand:" ++ real_name ++ ":" ++ real_sub_name)%string in
  if bool_decide (label ∈ name_list v)
  then inr (DuplicateCommand real_sub_name)
  else
    let '(v, sub_new_id) :=
      register v label
        (fun i => mkBaseNode i TOption (name sub_node) (Some (aliases sub_node)) []) in
    append_sub new_id sub_new_id v.

(** Lines 62-87: one top-level node. *)
Definition visit_node (v : Visitor) (node : Node) : Visitor + VisitError :=
  match node with
  | NOption o =>
      let real_name := lstrip_dash (name o) in
      let label := ("option:" ++ real_name)%string in
      if bool_decide (label ∈ name_list v)
      then inr (DuplicateCommand real_name)
      else
        let '(v, new_id) :=
          register v label
            (fun i => mkBaseNode i TOption (name o) (Some (aliases o)) []) in
        append_sub 0 new_id v
  | NSubcommand s =>
      let real_name := lstrip_dash (s_name s) in
      let label := ("subcommand:" ++ real_name)%string in
      if bool_decide (label ∈ name_list v)
      then inr (DuplicateCommand real_name)
      else
        let '(v, new_id) :=
          register v label (fun i => mkBaseNode i TSubcommand (s_name s) None []) in
        vbind (visit_loop (visit_sub_option real_name new_id) (s_options s) v)
          (append_sub 0 new_id)
  end.

(** [AlconnaNodeVisitor.__init__] (lines 55-87), for a command of the given
    name and options. *)
Definition AlconnaNodeVisitor (alconna_name : string) (options0 : list Node)
  : Visitor + VisitError :=
  visit_loop visit_node options0
    {| name_list := [alconna_name];
       node_map := [(0, mkBaseNode 0 TCommand alconna_name None [])] |}.

(** [self.node_map[self.name_list.index(label)]] *)
Definition node_at (label : string) (v : Visitor) : BaseNode + VisitError :=
  match index_of label (name_list v) with
  | None => inr (NotInList label)
  | Some i =>
      match iget i (node_map v) with
      | Some n => inl n
      | None => inr (MissingNode i)
      end
  end.

(** One round of the loop of [require] (lines 99-118) over the state
    [(_cache_name, _cache_node)]. *)
Definition require_step (v : Visitor) (st : string * BaseNode) (part : string)
  : (string * BaseNode) + VisitError :=
  let '(_cache_name, _cache_node) := st in
  if String.eqb part "option" || String.eqb part "subcommand"
  then inl (part, _cache_node)
  else if negb (String.eqb _cache_name "")
  then
    let _cache_name := (_cache_name ++ ":" ++ part)%string in
    if bool_decide (_cache_name ∈ name_list v)
    then vbind (node_at _cache_name v) (fun n => inl (_cache_name, n))
    else inl (_cache_name, _cache_node)
  else
    if bool_decide (("option:" ++ part)%string ∈ name_list v)
       && bool_decide (("subcommand:" ++ part)%string ∈ name_list v)
    then inr (AmbiguousName part)
    else if bool_decide (("subcommand:" ++ part)%string ∈ name_list v)
    then vbind (node_at ("subcommand:" ++ part) v)
           (fun n => inl (("subcommand:" ++ part)%string, n))
    else if bool_decide (("option:" ++ part)%string ∈ name_list v)
    then vbind (node_at ("option:" ++ part) v)
           (fun n => inl (("option:" ++ part)%string, n))
    else inl (_cache_name, _cache_node).

Fixpoint require_loop (v : Visitor) (parts : list string) (st : string * BaseNode)
  : (string * BaseNode) + VisitError :=
  match parts with
  | [] => inl st
  | part :: parts' => vbind (require_step v st part) (require_loop v parts')
  end.

(** The [path] argument of [require]. *)
Inductive PathArg : Type :=
| PathNone
| PathStr (s : string)
| PathList (l : list string).

(** [require] (lines 89-119) *)
Definition visitor_require (path : PathArg) (v : Visitor) : BaseNode + VisitError :=
  match iget 0 (node_map v) with
  | None => inr (MissingNode 0)
  | Some root =>
      match path with
      | PathNone => inl root
      | PathStr s => vbind (require_loop v (split_dot s) ("", root)) (fun st => inl (snd st))
      | PathList l => vbind (require_loop v l ("", root)) (fun st => inl (snd st))
      end
  end.

(** The labels that the constructor gives the nodes, in order. *)
Definition sub_label (real_name : string) (o : Option) : string :=
  ("subcommand:" ++ real_name ++ ":" ++ lstrip_dash (name o))%string.

Definition node_labels (n : Node) : list string :=
  match n with
  | NOption o => [("option:" ++ lstrip_dash (name o))%string]
  | NSubcommand s =>
      ("subcommand:" ++ lstrip_dash (s_name s))%string
      :: map (sub_label (lstrip_dash (s_name s))) (s_options s)
  end.

Definition labels (nodes : list Node) : list string := flat_map node_labels nodes.

(** [label] is a label of a node like [n]. *)
Definition labels_node (label : string) (n : BaseNode) : Prop :=
  (node_type n = TOption /\ label = ("option:" ++ lstrip_dash (node_name n))%string)
  \/ (node_type n = TSubcommand
      /\ label = ("subcommand:" ++ lstrip_dash (node_name n))%string)
  \/ (node_type n = TOption
      /\ exists p, label = ("subcommand:" ++ p ++ ":" ++ lstrip_dash (node_name n))%string).

(** The invariant of a visitor: the names are distinct, the keys of
    [node_map] are the positions of [name_list], every node sits under its
    own id, and from position 1 on the name at a position is a label of the
    node there. *)
Definition aligned (v : Visitor) : Prop :=
  NoDup (name_list v)
  /\ name_list v <> []
  /\ map fst (node_map v) = seq 0 (length (name_list v))
  /\ (forall i n, iget i (node_map v) = Some n -> node_id n = i)
  /\ (forall i label, 1 <= i -> name_list v !! i = Some label ->
        exists n, iget i (node_map v) = Some n /\ labels_node label n).

(** What a loop of the constructor comes to, for the labels it is to add. *)
Definition loop_outcome (v : Visitor) (new : list string)
    (res : Visitor + VisitError) : Prop :=
  match res with
  | inl v' => aligned v' /\ name_list v' = name_list v ++ new
  | inr e => ~ NoDup (name_list v ++ new) /\ exists t, e = DuplicateCommand t
  end.

(** [n] is a node of the visitor, under its own id. *)
Definition known_node (v : Visitor) (n : BaseNode) : Prop :=
  iget (node_id n) (node_map v) = Some n.

(** What a round of [require] may come to: a node of the visitor, or the
    ambiguity error. *)
Definition step_sound (v : Visitor) (res : (string * BaseNode) + VisitError) : Prop :=
  match res with
  | inl st => known_node v (snd st)
  | inr e => exists t, e = AmbiguousName t
  end.

(** A result with [n] in both argument dicts and a zero among the values. *)
Definition collision : Arparma :=
  {| _source := "demo::cmd";
     origin := ["cmd"];
     matched := true;
     error_info := NoError;
     main_args := [("n", AInt 0)];
     other_args := [("n", AInt 9); ("s", AStr "text")];
     options := [];
     subcommands := [] |}.

Definition is_int (v : QVal) : bool :=
  match v with QAny (AInt _) => true | _ => false end.

Definition is_str (v : QVal) : bool :=
  match v with QAny (AStr _) => true | _ => false end.

(** A behavior that requires [marking], and one that raises an error of the
    user's. *)
Definition needs_marking : Behavior :=
  mkBehavior "needs_marking" [marking] (fun r => (r, None)).

Definition crashing : Behavior :=
  mkBehavior "crashing" [] (fun r => (r, Some (UserError "boom"))).

(** A result whose only argument is a zero. *)
Definition zero_count : Arparma :=
  {| _source := "demo::cmd";
     origin := ["cmd"; "0"];
     matched := true;
     error_info := NoError;
     main_args := [("count", AInt 0)];
     other_args := [];
     options := [];
     subcommands := [] |}.

(** A subcommand with the options [--verbose|-v] and [--version|-v]. *)
Definition tool_subcommand : Subcommand :=
  {| s_name := "tool";
     s_requires := [];
     s_separators := [" "];
     nargs := 0;
     s_options := [verbose; version];
     sub_params := ∅;
     sub_part_len := None |}.

Definition with_tool : Analyser :=
  {| alconna_options := [NOption verbose; NSubcommand tool_subcommand; NOption version];
     command_params := ∅;
     param_ids := ∅;
     an_separators := [" "];
     default_separate := true;
     need_main_args := false;
     part_len := None |}.

(** A manager with an action cached for [greet] and no output yet; actions
    and generators are told apart by numbers. *)
Definition fresh_manager : OutputActionManager nat nat :=
  {| mgr_cache := [("greet", 7)]; outputs := []; send_action := 0 |}.

(** Options [--foo] and [-foo]: both are [foo] without the dashes. *)
Definition dash_foo : Option :=
  {| name := "-foo"; aliases := {[ "-foo" ]};
     requires := []; priority := 0; separators := [" "] |}.

Definition dashdash_foo : Option :=
  {| name := "--foo"; aliases := {[ "--foo" ]};
     requires := []; priority := 0; separators := [" "] |}.

(** * Properties *)

(** ** Strings *)

Lemma split_dot_no_dot (s : string) : no_dot s = true -> split_dot s = [s].
Proof.
  induction s as [|c s IH]; simpl; [reflexivity|].
  destruct (Ascii.eqb c dot); simpl; [discriminate|].
  intros H. rewrite (IH H). reflexivity.
Qed.

Lemma split_dot_app (a b : string) :
  no_dot a = true -> split_dot (a ++ String dot b)%string = a :: split_dot b.
Proof.
  induction a as [|c a IH]; simpl.
  - intros _. reflexivity.
  - destruct (Ascii.eqb c dot); simpl; [discriminate|].
    intros H. rewrite (IH H). reflexivity.
Qed.

Lemma eqb_false_of_ne (s t : string) : s <> t -> String.eqb s t = false.
Proof. intros H. apply String.eqb_neq. exact H. Qed.

(** ** Dictionaries *)

Section DictFacts.
Context {V : Type}.
Implicit Types (d a b : dict V) (k : string).

Lemma contains_get k d : contains k d = true <-> exists v, get k d = Some v.
Proof.
  unfold contains. destruct (get k d) as [v|]; split.
  - eauto.
  - reflexivity.
  - discriminate.
  - intros [v Hv]. discriminate.
Qed.

Lemma contains_false k d : contains k d = false <-> get k d = None.
Proof.
  unfold contains. destruct (get k d); split; congruence.
Qed.

Lemma get_set_eq k (v : V) d : get k (set k v d) = Some v.
Proof.
  induction d as [|[k' v'] d IH]; simpl.
  - rewrite String.eqb_refl. reflexivity.
  - destruct (String.eqb k k') eqn:E; simpl; rewrite E; [reflexivity|exact IH].
Qed.

Lemma get_set_ne k k' (v : V) d : k <> k' -> get k (set k' v d) = get k d.
Proof.
  intros Hne. induction d as [|[k2 v2] d IH]; simpl.
  - rewrite (eqb_false_of_ne _ _ Hne). reflexivity.
  - destruct (String.eqb k' k2) eqn:E; simpl.
    + apply String.eqb_eq in E. subst k2.
      rewrite (eqb_false_of_ne _ _ Hne). reflexivity.
    + destruct (String.eqb k k2); [reflexivity|exact IH].
Qed.

Lemma get_not_key k d : k ∉ keys d -> get k d = None.
Proof.
  induction d as [|[k' v'] d IH]; simpl; [reflexivity|].
  intros Hn. destruct (String.eqb k k') eqn:E.
  - apply String.eqb_eq in E. subst. exfalso. apply Hn. left.
  - apply IH. intros Hin. apply Hn. right. exact Hin.
Qed.

(** In [{**a, **b}] a key of [b] has the value of [b], any other key that
    of [a]. *)
Lemma get_merge k a b :
  wf_dict b ->
  get k (merge a b) = match get k b with Some v => Some v | None => get k a end.
Proof.
  unfold merge, wf_dict. revert a.
  induction b as [|[k' v'] b IH]; intros a Hwf; simpl; [reflexivity|].
  simpl in Hwf. apply NoDup_cons in Hwf as [Hnotin Hwf].
  rewrite (IH _ Hwf).
  destruct (String.eqb k k') eqn:E.
  - apply String.eqb_eq in E. subst k'.
    rewrite (get_not_key _ _ Hnotin). apply get_set_eq.
  - apply String.eqb_neq in E.
    destruct (get k b); [reflexivity|]. apply get_set_ne. exact E.
Qed.

Lemma get_filter_key (P : string -> bool) k d :
  get k (List.filter (fun kv => P (fst kv)) d)
  = if P k then get k d else None.
Proof.
  induction d as [|[k' v'] d IH]; simpl.
  - destruct (P k); reflexivity.
  - destruct (P k') eqn:Pk'; simpl.
    + destruct (String.eqb k k') eqn:E.
      * apply String.eqb_eq in E. subst. rewrite Pk'. reflexivity.
      * exact IH.
    + destruct (String.eqb k k') eqn:E.
      * apply String.eqb_eq in E. subst. rewrite Pk' in IH |- *. exact IH.
      * exact IH.
Qed.
End DictFacts.

(** ** Dotted-path queries *)

Lemma first_source_lookup (nm : string) (d : QVal) (r : Arparma) :
  nm <> "" ->
  match first_source nm r with
  | Some src =>
      query_parts [nm] d r = Ok (bare_lookup nm d r)
  | None => bare_lookup nm d r = d
  end.
Proof.
  intros Hne. unfold first_source, bare_lookup, query_parts, __require__.
  unfold first_source, contains.
  assert (Ht : endpoint_truthy (EStr nm) = true).
  { simpl. rewrite (eqb_false_of_ne _ _ Hne). reflexivity. }
  destruct (get nm (main_args r)) as [v|] eqn:E1.
  { cbn [bind]. rewrite Ht. simpl. rewrite E1. reflexivity. }
  destruct (get nm (other_args r)) as [v|] eqn:E2.
  { cbn [bind]. rewrite Ht. simpl. rewrite E2. reflexivity. }
  destruct (get nm (options r)) as [v|] eqn:E3.
  { cbn [bind]. rewrite Ht. simpl. rewrite E3. reflexivity. }
  destruct (get nm (subcommands r)) as [v|] eqn:E4.
  { cbn [bind]. rewrite Ht. simpl. rewrite E4. reflexivity. }
  reflexivity.
Qed.

(** A one-segment path that is found in one of the four dicts, or is not a
    reserved word, is answered by the bare-name rule. *)
Lemma query_one_segment (nm : string) (d : QVal) (r : Arparma) :
  nm <> "" -> no_dot nm = true ->
  (is_reserved nm = false \/ first_source nm r <> None) ->
  query nm d r = Ok (bare_lookup nm d r).
Proof.
  intros Hne Hdot Hcase. unfold query. rewrite (split_dot_no_dot _ Hdot).
  pose proof (first_source_lookup nm d r Hne) as H.
  destruct (first_source nm r) as [src|] eqn:Efs; [exact H|].
  destruct Hcase as [Hres|Hfound]; [|congruence].
  rewrite H. unfold query_parts, __require__. rewrite Efs.
  unfold is_reserved in Hres. apply orb_false_iff in Hres as [Hattr Hargs].
  rewrite Hattr, Hargs. reflexivity.
Qed.

Lemma split_options_path (nm : string) :
  no_dot nm = true -> split_dot ("options." ++ nm)%string = ["options"; nm].
Proof.
  intros H.
  change ("options." ++ nm)%string with ("options" ++ String dot nm)%string.
  rewrite split_dot_app by reflexivity.
  rewrite (split_dot_no_dot _ H). reflexivity.
Qed.

(** [options.<name>] gives the whole OptionResult stored under the name. *)
Lemma query_options_scoped (r : Arparma) (nm : string) (o : OptionResult) (d : QVal) :
  nm <> "" -> no_dot nm = true ->
  get nm (options r) = Some o ->
  in_components "options" r = false ->
  query ("options." ++ nm)%string d r = Ok (QOpt o).
Proof.
  intros Hne Hdot Hget Hamb. unfold query.
  rewrite (split_options_path _ Hdot).
  unfold query_parts, __require__, _handle_opt. rewrite Hamb. simpl.
  rewrite (eqb_false_of_ne _ _ Hne). simpl. rewrite Hget. reflexivity.
Qed.

(** C1, as amended.  When [options] has an entry [foo] (and no component is
    itself called [options]), [query("options.foo")] gives the option's
    result, and [query("foo")] raises nothing: it answers by the bare-name
    rule, which gives the option's result whenever no argument is named
    [foo], also when [subcommands] has a [foo] as well. *)
Theorem query_option_and_bare_name
    (r : Arparma) (foo : string) (o : OptionResult) (d : QVal) :
  foo <> "" -> no_dot foo = true ->
  get foo (options r) = Some o ->
  in_components "options" r = false ->
  query ("options." ++ foo)%string d r = Ok (QOpt o)
  /\ query foo d r = Ok (bare_lookup foo d r)
  /\ (contains foo (main_args r) = false ->
      contains foo (other_args r) = false ->
      query foo d r = Ok (QOpt o)).
Proof.
  intros Hne Hdot Hget Hamb.
  assert (Hq : query foo d r = Ok (bare_lookup foo d r)).
  { apply query_one_segment; try assumption. right.
    unfold first_source.
    destruct (contains foo (main_args r)); [discriminate|].
    destruct (contains foo (other_args r)); [discriminate|].
    assert (Hc : contains foo (options r) = true)
      by (apply contains_get; eauto).
    rewrite Hc. discriminate. }
  split; [|split].
  - apply query_options_scoped; assumption.
  - exact Hq.
  - intros Hm Ho. rewrite Hq. unfold bare_lookup.
    apply contains_false in Hm, Ho. rewrite Hm, Ho, Hget. reflexivity.
Qed.

Lemma query_option_and_bare_name_witness :
  query "options.foo" (QAny ANone) both_foo = Ok (QOpt foo_option)
  /\ query "foo" (QAny ANone) both_foo = Ok (QOpt foo_option).
Proof.
  destruct (query_option_and_bare_name both_foo "foo" foo_option (QAny ANone))
    as (H1 & _ & H3); [discriminate|reflexivity|reflexivity|reflexivity|].
  split; [exact H1|apply H3; reflexivity].
Defined.

(** C1, as stated, fails on [both_foo], whose command has an option and a
    subcommand named [foo]: [query("foo")] raises nothing. *)
Lemma query_bare_name_not_ambiguous :
  ~ (query "options.foo" (QAny ANone) both_foo = Ok (QOpt foo_option)
     /\ exists e, query "foo" (QAny ANone) both_foo = Raise e).
Proof.
  intros [_ [e He]]. vm_compute in He. discriminate.
Qed.

(** C5, as amended: for a non-empty one-segment name that is not a reserved
    word, [query] searches [main_args], [other_args], [options] and
    [subcommands] in this order and gives the value of the first that has
    the name, or the default. *)
Theorem query_bare_name (r : Arparma) (nm : string) (d : QVal) :
  nm <> "" -> no_dot nm = true -> is_reserved nm = false ->
  query nm d r = Ok (bare_lookup nm d r).
Proof.
  intros Hne Hdot Hres. apply query_one_segment; auto.
Qed.

Lemma query_bare_name_witness :
  query "foo" (QAny ANone) both_foo = Ok (bare_lookup "foo" (QAny ANone) both_foo).
Proof.
  apply (query_bare_name both_foo "foo" (QAny ANone));
    [discriminate|reflexivity|reflexivity].
Defined.

(** C5, as stated, fails for the empty name: on [empty_key] the path [""]
    is one segment and no reserved word, and [query] gives the whole
    [main_args] instead of the value stored under the name. *)
Lemma query_bare_name_empty_key :
  ~ (no_dot "" = true -> is_reserved "" = false ->
     query "" (QAny ANone) empty_key = Ok (bare_lookup "" (QAny ANone) empty_key)).
Proof.
  intros H. specialize (H eq_refl eq_refl). vm_compute in H. discriminate.
Qed.

(** C10: [find] is true exactly when [query] with the [Empty] sentinel as
    default returns something other than the sentinel, false exactly when it
    returns the sentinel; so a stored [Empty] is reported as absent. *)
Theorem find_iff_query_not_Empty (r : Arparma) (path : string) :
  (find path r = Ok true <->
     exists v, query path (QAny AEmpty) r = Ok v /\ v <> QAny AEmpty)
  /\ (find path r = Ok false <-> query path (QAny AEmpty) r = Ok (QAny AEmpty))
  /\ (forall nm, path = nm -> nm <> "" -> no_dot nm = true ->
        get nm (main_args r) = Some AEmpty -> find path r = Ok false).
Proof.
  assert (Hne : forall v, ne_Empty v = true <-> v <> QAny AEmpty).
  { intros v. destruct v as [[]| | | | |]; simpl; split; congruence. }
  assert (Hfalse : find path r = Ok false <->
                   query path (QAny AEmpty) r = Ok (QAny AEmpty)).
  { unfold find. destruct (query path (QAny AEmpty) r) as [v|e]; simpl.
    - split.
      + intros H. f_equal. destruct (ne_Empty v) eqn:E; [congruence|].
        destruct v as [[]| | | | |]; simpl in E; congruence.
      + intros H. injection H as ->. reflexivity.
    - split; discriminate. }
  split; [|split].
  - unfold find. destruct (query path (QAny AEmpty) r) as [v|e]; simpl.
    + split.
      * intros H. exists v. split; [reflexivity|]. apply Hne. congruence.
      * intros [v' [Hv Hd]]. injection Hv as <-. apply Hne in Hd.
        rewrite Hd. reflexivity.
    + split; [discriminate|]. intros [v [Hv _]]. discriminate.
  - exact Hfalse.
  - intros nm -> Hnm Hdot Hget. apply Hfalse.
    rewrite query_one_segment; try assumption.
    + unfold bare_lookup. rewrite Hget. reflexivity.
    + right. unfold first_source.
      assert (Hc : contains nm (main_args r) = true)
        by (apply contains_get; eauto).
      rewrite Hc. discriminate.
Qed.

Lemma find_iff_query_not_Empty_witness :
  find "bar" stores_empty = Ok false /\ find "foo" both_foo = Ok true.
Proof.
  split.
  - apply (proj2 (proj2 (find_iff_query_not_Empty stores_empty "bar")) "bar");
      [reflexivity|discriminate|reflexivity|reflexivity].
  - apply (proj1 (find_iff_query_not_Empty both_foo "foo")).
    exists (QOpt foo_option). split; [reflexivity|discriminate].
Defined.

(** ** The final segments [value] and [args] *)

Lemma split_3 (a b c : string) :
  no_dot a = true -> no_dot b = true -> no_dot c = true ->
  split_dot (a ++ String dot (b ++ String dot c))%string = [a; b; c].
Proof.
  intros Ha Hb Hc.
  rewrite (split_dot_app _ _ Ha), (split_dot_app _ _ Hb), (split_dot_no_dot _ Hc).
  reflexivity.
Qed.

Section Scoped.
Variables (r : Arparma) (nm : string) (d : QVal).
Hypothesis nm_segment : no_dot nm = true.
Hypothesis nm_not_empty : nm <> "".

(** The subcommand path: for [subcommands.<name>.value] and
    [subcommands.<name>.args] the lookup ends at the result record with the
    segment as endpoint, and [query] then calls [get] on the record;
    [subcommands.<name>] gives the whole result. *)
Lemma query_subcommand_segments (s : SubcommandResult) :
  get nm (subcommands r) = Some s ->
  in_components "subcommands" r = false ->
  __require__ ["subcommands"; nm; "value"] r = Ok (SSub s, EStr "value")
  /\ __require__ ["subcommands"; nm; "args"] r = Ok (SSub s, EStr "args")
  /\ query ("subcommands" ++ String dot (nm ++ String dot "value"))%string d r
    = Raise (NoSuchAttribute "get")
  /\ query ("subcommands" ++ String dot (nm ++ String dot "args"))%string d r
    = Raise (NoSuchAttribute "get")
  /\ query ("subcommands" ++ String dot nm)%string d r = Ok (QSub s).
Proof.
  intros Hget Hamb. unfold query.
  assert (Hopt : contains "subcommands" (options r) = false).
  { unfold in_components in Hamb. apply orb_false_iff in Hamb as [H _]. exact H. }
  rewrite !split_3 by (assumption || reflexivity).
  rewrite (split_dot_app "subcommands" nm eq_refl), (split_dot_no_dot _ nm_segment).
  unfold query_parts, __require__, require_sub. rewrite Hamb.
  simpl. rewrite Hopt. simpl. rewrite !Hget.
  rewrite (eqb_false_of_ne _ _ nm_not_empty). simpl.
  repeat split; reflexivity.
Qed.

(** The option path: [options.<name>.args] gives the args dict and
    [options.<name>] the whole result; for [options.<name>.value] line 148
    hands [query] the record with the boolean [True] as the endpoint. *)
Lemma query_option_segments (o : OptionResult) :
  get nm (options r) = Some o ->
  in_components "options" r = false ->
  __require__ ["options"; nm; "value"] r = Ok (SOpt o, EBool true)
  /\ query ("options" ++ String dot (nm ++ String dot "value"))%string d r
    = Raise (NoSuchAttribute "get")
  /\ query ("options" ++ String dot (nm ++ String dot "args"))%string d r
    = Ok (QArgs (opt_args o))
  /\ query ("options" ++ String dot nm)%string d r = Ok (QOpt o).
Proof.
  intros Hget Hamb. unfold query.
  rewrite !split_3 by (assumption || reflexivity).
  rewrite (split_dot_app "options" nm eq_refl), (split_dot_no_dot _ nm_segment).
  unfold query_parts, __require__, _handle_opt. rewrite Hamb.
  simpl. rewrite !Hget.
  rewrite (eqb_false_of_ne _ _ nm_not_empty). simpl.
  repeat split; reflexivity.
Qed.
End Scoped.

(** C2 at the failing input.  On [foo_and_bar] the option [foo] stores the
    value 1, yet for [options.foo.value] the lookup hands [query] the
    boolean [True] as the endpoint, not the segment, and [query] does not
    return the stored value: its [get] on the record fails.  The subcommand
    path, which parenthesises its assignment (line 163), does end with the
    segment [value] as the endpoint. *)
Theorem option_value_segment_lost :
  get "foo" (options foo_and_bar) = Some foo_option
  /\ opt_value foo_option = AInt 1
  /\ __require__ ["options"; "foo"; "value"] foo_and_bar
     = Ok (SOpt foo_option, EBool true)
  /\ query "options.foo.value" (QAny ANone) foo_and_bar
     = Raise (NoSuchAttribute "get")
  /\ __require__ ["subcommands"; "bar"; "value"] foo_and_bar
     = Ok (SSub foo_subcommand, EStr "value").
Proof. repeat split; reflexivity. Qed.

(** ** The behavior pipeline *)

Lemma run_behaviors_app (pre rest : list Behavior) (r r1 : Arparma) :
  fst (run_behaviors pre r) = Finished r1 ->
  run_behaviors (pre ++ rest) r
  = (fst (run_behaviors rest r1), map bname pre ++ snd (run_behaviors rest r1)).
Proof.
  revert r. induction pre as [|b pre IH]; intros r; simpl.
  - intros [= ->]. destruct (run_behaviors rest r1); reflexivity.
  - destruct (operate b r) as [r' [e|]] eqn:Eop.
    + destruct e; try discriminate.
      destruct (run_behaviors pre r') as [res ran] eqn:Epre. simpl.
      intros ->. rewrite (IH r'); [reflexivity|rewrite Epre; reflexivity].
    + destruct (run_behaviors pre r') as [res ran] eqn:Epre. simpl.
      intros ->. rewrite (IH r'); [reflexivity|rewrite Epre; reflexivity].
Qed.

(** Behaviors that leave [_source] and [origin] alone leave them alone in
    what the loop gives back. *)
Lemma run_behaviors_source_origin (bs : list Behavior) (r : Arparma) :
  Forall (fun b => forall x, _source (operate b x).1 = _source x
                             /\ origin (operate b x).1 = origin x) bs ->
  match (run_behaviors bs r).1 with
  | Finished r' | Failed r' => _source r' = _source r /\ origin r' = origin r
  | Propagated _ => True
  end.
Proof.
  intros Hall. revert r.
  induction Hall as [|b bs Hb Hbs IH]; intros r; simpl; [split; reflexivity|].
  destruct (Hb r) as [Hs Ho]. specialize (IH (operate b r).1).
  destruct (operate b r) as [r' [e|]]; simpl in *.
  - destruct e; simpl; try exact I.
    + destruct (run_behaviors bs r') as [res ran]; simpl in *.
      destruct res; [| |exact I]; rewrite <- Hs, <- Ho; exact IH.
    + split; assumption.
  - destruct (run_behaviors bs r') as [res ran]; simpl in *.
    destruct res; [| |exact I]; rewrite <- Hs, <- Ho; exact IH.
Qed.

(** C3.  Let the flattened behaviors be [pre ++ b :: post] and let the loop
    get through [pre], leaving the Arparma as [r1].  If [operate] of [b]
    raises BehaveCancelled (leaving the Arparma as [r2]), [execute] goes on
    with [post] from [r2]: its outcome is that of running [post], and every
    behavior entered there is entered here.  If it raises OutBoundsBehave,
    [execute] returns (does not raise) a result with [matched] false,
    [error_info] the exception, and the [_source] and [origin] of the
    Arparma, and no behavior of [post] is entered. *)
Theorem execute_signals
    (src : list Behavior) (bs : option (list Behavior)) (r r1 r2 : Arparma)
    (pre post : list Behavior) (b : Behavior) :
  exc_behaviors src bs = pre ++ b :: post ->
  fst (run_behaviors pre r) = Finished r1 ->
  (operate b r1 = (r2, Some BehaveCancelled) ->
     fst (execute src bs r) = fst (returned (run_behaviors post r2))
     /\ snd (execute src bs r)
        = map bname pre ++ bname b :: snd (run_behaviors post r2))
  /\ (forall p, operate b r1 = (r2, Some (OutBoundsBehave p)) ->
     exists r',
       execute src bs r = (Ok r', map bname pre ++ [bname b])
       /\ matched r' = false
       /\ error_info r' = ErrExc (OutBoundsBehave p)
       /\ _source r' = _source r2
       /\ origin r' = origin r2).
Proof.
  intros Hflat Hpre. unfold execute. rewrite Hflat.
  rewrite (run_behaviors_app pre (b :: post) r r1 Hpre).
  split.
  - intros Hop. simpl. rewrite Hop.
    destruct (run_behaviors post r2) as [res ran]. unfold returned. simpl.
    destruct res; split; reflexivity.
  - intros p Hop. simpl. rewrite Hop. unfold returned. simpl.
    eexists. split; [reflexivity|]. repeat split; reflexivity.
Qed.

Lemma execute_signals_witness :
  snd (execute [marking] (Some [cancelling; marking]) no_args)
    = ["cancelling"; "marking"]
  /\ exists r',
       execute [marking] (Some [marking; failing; marking]) no_args
         = (Ok r', ["marking"; "failing"])
       /\ matched r' = false.
Proof.
  split.
  - apply (proj1 (execute_signals [marking] (Some [cancelling; marking])
                    no_args no_args no_args [] [marking] cancelling
                    eq_refl eq_refl)).
    reflexivity.
  - destruct (proj2 (execute_signals [marking] (Some [marking; failing; marking])
                       no_args (fst (operate marking no_args))
                       (fst (operate marking no_args))
                       [marking] [marking] failing eq_refl eq_refl)
                _ eq_refl) as (r' & H1 & H2 & _).
    exists r'. split; [exact H1|exact H2].
Defined.

(** ** [call] *)





(** ** [encapsulate_result] *)

Lemma merge_option_args_union (acc : dict Any) (vs : list OptionResult) :
  merge_option_args acc vs = union_all acc (map opt_args vs).
Proof.
  unfold merge_option_args, union_all. revert acc.
  induction vs as [|v vs IH]; intros acc; simpl; [reflexivity|apply IH].
Qed.

Lemma union_all_app (base : dict Any) (ds1 ds2 : list (dict Any)) :
  union_all base (ds1 ++ ds2) = union_all (union_all base ds1) ds2.
Proof. unfold union_all. apply fold_left_app. Qed.

Lemma merge_subcommand_union (subs : dict SubcommandResult) (acc : dict Any)
    (k : string) (v : SubcommandResult) :
  get k subs = Some v ->
  merge_subcommand subs acc k
  = union_all acc (sub_args v :: map opt_args (values (sub_options v))).
Proof.
  intros Hget. unfold merge_subcommand. rewrite Hget.
  destruct (sub_options v) as [|kv rest]; cbn [truthy]; [reflexivity|].
  exact (merge_option_args_union (merge acc (sub_args v)) (values (kv :: rest))).
Qed.

Lemma get_of_entry {V : Type} (d : dict V) (k : string) (v : V) :
  wf_dict d -> (k, v) ∈ d -> get k d = Some v.
Proof.
  unfold wf_dict. induction d as [|[k' v'] d IH]; simpl; intros Hwf Hin.
  - inversion Hin.
  - apply NoDup_cons in Hwf as [Hnotin Hwf].
    apply elem_of_cons in Hin as [Heq|Hin].
    + injection Heq as <- <-. rewrite String.eqb_refl. reflexivity.
    + destruct (String.eqb k k') eqn:E.
      * apply String.eqb_eq in E. subst k'. exfalso. apply Hnotin.
        unfold keys. apply (list_elem_of_fmap_2 fst) in Hin. exact Hin.
      * apply IH; assumption.
Qed.

Lemma fold_subcommands_union (subs l : dict SubcommandResult) (acc : dict Any) :
  (forall k v, (k, v) ∈ l -> get k subs = Some v) ->
  fold_left (merge_subcommand subs) (keys l) acc
  = union_all acc
      (flat_map (fun v => sub_args v :: map opt_args (values (sub_options v)))
         (values l)).
Proof.
  revert acc. induction l as [|[k v] l IH]; intros acc Hall; simpl.
  - reflexivity.
  - rewrite (merge_subcommand_union subs acc k v) by (apply Hall; left).
    rewrite IH by (intros k' v' Hin; apply Hall; right; exact Hin).
    change (sub_args v :: map opt_args (values (sub_options v))
            ++ flat_map (fun v0 => sub_args v0 :: map opt_args (values (sub_options v0)))
                 (values l))
      with ((sub_args v :: map opt_args (values (sub_options v)))
            ++ flat_map (fun v0 => sub_args v0 :: map opt_args (values (sub_options v0)))
                 (values l)).
    rewrite union_all_app. reflexivity.
Qed.

Lemma hit_from_None (k : string) (acc : option Any) (ds : list (dict Any)) :
  hit_from k acc ds
  = match hit_from k None ds with Some v => Some v | None => acc end.
Proof.
  unfold hit_from. revert acc.
  induction ds as [|d ds IH]; intros acc; simpl; [reflexivity|].
  rewrite IH. rewrite (IH (match get k d with Some v => Some v | None => None end)).
  destruct (fold_left _ ds None); [reflexivity|].
  destruct (get k d); reflexivity.
Qed.

Lemma get_union_all (k : string) (base : dict Any) (ds : list (dict Any)) :
  Forall wf_dict ds ->
  get k (union_all base ds)
  = match last_hit k ds with Some v => Some v | None => get k base end.
Proof.
  intros Hwf. unfold last_hit. rewrite <- (hit_from_None k (get k base) ds).
  unfold union_all, hit_from. revert base.
  induction Hwf as [|d ds Hd Hds IH]; intros base; simpl; [reflexivity|].
  rewrite IH. rewrite (get_merge k base d Hd). reflexivity.
Qed.

(** C9, as amended.  [encapsulate_result] merges into the [other_args] the
    Arparma already has: afterwards [other_args] is the previous
    [other_args] united with the args dict of every OptionResult, of every
    SubcommandResult and of every option nested directly in a subcommand,
    later-merged ones overwriting; on an Arparma whose [other_args] is
    empty it is that union.  The dicts are merged as the code visits them
    ([args_sequence]): those of the options, then subcommand by subcommand
    its own and those of its nested options.  A key has the value of the
    last dict that has it.
    [all_matched_args] is [main_args] merged with [other_args], a key of
    both having the value of [other_args]. *)
Theorem encapsulate_result_other_args
    (r : Arparma) (m : dict Any) (o : dict OptionResult)
    (s : dict SubcommandResult) :
  wf_dict s ->
  other_args (encapsulate_result m o s r)
    = union_all (other_args r) (args_sequence o s)
  /\ (other_args r = [] ->
      other_args (encapsulate_result m o s r) = union_all [] (args_sequence o s))
  /\ (Forall wf_dict (args_sequence o s) -> forall k,
      get k (other_args (encapsulate_result m o s r))
      = match last_hit k (args_sequence o s) with
        | Some v => Some v
        | None => get k (other_args r)
        end)
  /\ all_matched_args (encapsulate_result m o s r)
     = merge m (other_args (encapsulate_result m o s r))
  /\ (wf_dict (other_args (encapsulate_result m o s r)) -> forall k,
      get k (all_matched_args (encapsulate_result m o s r))
      = match get k (other_args (encapsulate_result m o s r)) with
        | Some v => Some v
        | None => get k m
        end).
Proof.
  intros Hwf.
  assert (Heq : other_args (encapsulate_result m o s r)
                = union_all (other_args r) (args_sequence o s)).
  { unfold encapsulate_result, args_sequence. cbn [other_args].
    rewrite merge_option_args_union, union_all_app.
    apply fold_subcommands_union.
    intros k v Hin. apply get_of_entry; assumption. }
  split; [exact Heq|]. split; [|split; [|split]].
  - intros Hempty. rewrite Heq, Hempty. reflexivity.
  - intros Hall k. rewrite Heq. apply get_union_all. exact Hall.
  - reflexivity.
  - intros Hwf' k. apply (get_merge k m _ Hwf').
Qed.

Lemma encapsulate_result_other_args_witness :
  other_args (encapsulate_result [] [("foo", foo_option)]
                [("bar", foo_subcommand)] has_other)
  = [("x", AInt 5); ("y", AInt 6)].
Proof.
  assert (Hwf : wf_dict [("bar", foo_subcommand)]).
  { unfold wf_dict. simpl. apply NoDup_singleton. }
  rewrite (proj1 (encapsulate_result_other_args has_other []
                    [("foo", foo_option)] [("bar", foo_subcommand)] Hwf)).
  reflexivity.
Defined.

(** C9, as stated, fails on [has_other]: nothing is passed in, the union is
    empty, and [other_args] still has its old entry. *)
Lemma encapsulate_result_keeps_other_args :
  ~ (other_args (encapsulate_result [] [] [] has_other)
     = union_all [] (args_sequence [] [])).
Proof. vm_compute. discriminate. Qed.

(** ** Sorting by descending priority *)

Lemma insert_desc_perm (o : Option) (l : list Option) :
  insert_desc o l ≡ₚ o :: l.
Proof.
  induction l as [|x l IH]; simpl; [reflexivity|].
  destruct (priority x <? priority o)%Z; [reflexivity|].
  rewrite IH. apply Permutation_swap.
Qed.

Lemma sort_desc_snoc (l : list Option) (o : Option) :
  sort_desc (l ++ [o]) = insert_desc o (sort_desc l).
Proof. unfold sort_desc. rewrite fold_left_app. reflexivity. Qed.

Lemma sort_desc_perm (l : list Option) : sort_desc l ≡ₚ l.
Proof.
  induction l as [|o l IH] using rev_ind; [reflexivity|].
  rewrite sort_desc_snoc, insert_desc_perm, IH.
  rewrite Permutation_app_comm. reflexivity.
Qed.

Lemma insert_desc_sorted (o : Option) (l : list Option) :
  StronglySorted prio_ge l -> StronglySorted prio_ge (insert_desc o l).
Proof.
  induction 1 as [|x l Hs IH Hx]; simpl.
  - constructor; constructor.
  - destruct (priority x <? priority o)%Z eqn:E.
    + apply Z.ltb_lt in E. constructor; [constructor; assumption|].
      constructor; [unfold prio_ge; lia|].
      eapply Forall_impl; [exact Hx|]. unfold prio_ge. intros y Hy. lia.
    + apply Z.ltb_ge in E. constructor; [exact IH|].
      rewrite insert_desc_perm. constructor; [exact E|exact Hx].
Qed.

Lemma sort_desc_sorted (l : list Option) : StronglySorted prio_ge (sort_desc l).
Proof.
  induction l as [|o l IH] using rev_ind; [constructor|].
  rewrite sort_desc_snoc. apply insert_desc_sorted. exact IH.
Qed.

Lemma insert_desc_last (o : Option) (l : list Option) :
  Forall (fun x => prio_ge x o) l -> insert_desc o l = l ++ [o].
Proof.
  induction 1 as [|x l Hx Hl IH]; simpl; [reflexivity|].
  unfold prio_ge in Hx. apply Z.ltb_ge in Hx. rewrite Hx, IH. reflexivity.
Qed.

Lemma sorted_snoc (l : list Option) (o : Option) :
  StronglySorted prio_ge (l ++ [o]) ->
  StronglySorted prio_ge l /\ Forall (fun x => prio_ge x o) l.
Proof.
  induction l as [|x l IH]; simpl; intros Hs.
  - split; constructor.
  - apply StronglySorted_inv in Hs as [Hs Hx].
    destruct (IH Hs) as [Hl Ho]. split.
    + constructor; [exact Hl|].
      apply Forall_app in Hx as [Hx _]. exact Hx.
    + constructor; [|exact Ho].
      apply Forall_app in Hx as [_ Hx]. apply Forall_inv in Hx. exact Hx.
Qed.

(** Sorting a sorted list changes nothing. *)
Lemma sort_desc_id (l : list Option) :
  StronglySorted prio_ge l -> sort_desc l = l.
Proof.
  induction l as [|o l IH] using rev_ind; [reflexivity|].
  intros Hs. apply sorted_snoc in Hs as [Hl Ho].
  rewrite sort_desc_snoc, (IH Hl). apply insert_desc_last. exact Ho.
Qed.

Lemma sort_desc_resort (l : list Option) (o : Option) :
  sort_desc (sort_desc l ++ [o]) = sort_desc (l ++ [o]).
Proof.
  rewrite !sort_desc_snoc. rewrite (sort_desc_id _ (sort_desc_sorted l)).
  reflexivity.
Qed.

Lemma filter_priority_below (p : Z) (l : list Option) :
  Forall (fun y => (priority y < p)%Z) l -> List.filter (has_priority p) l = [].
Proof.
  induction 1 as [|y l Hy Hl IH]; simpl; [reflexivity|].
  unfold has_priority at 1.
  assert (Hy' : (priority y =? p)%Z = false) by (apply Z.eqb_neq; lia).
  rewrite Hy'. exact IH.
Qed.

(** Stability: options of one priority stay in their order. *)
Lemma insert_desc_stable (p : Z) (o : Option) (l : list Option) :
  StronglySorted prio_ge l ->
  List.filter (has_priority p) (insert_desc o l)
  = List.filter (has_priority p) (l ++ [o]).
Proof.
  induction 1 as [|x l Hs IH Hx]; [reflexivity|].
  cbn [insert_desc].
  destruct (priority x <? priority o)%Z eqn:E.
  - apply Z.ltb_lt in E.
    rewrite List.filter_app.
    change (List.filter (has_priority p) (o :: x :: l))
      with (if has_priority p o
            then o :: List.filter (has_priority p) (x :: l)
            else List.filter (has_priority p) (x :: l)).
    change (List.filter (has_priority p) [o])
      with (if has_priority p o then [o] else []).
    destruct (has_priority p o) eqn:Eo.
    + assert (Hp : p = priority o) by (symmetry; apply Z.eqb_eq; exact Eo).
      assert (Hlow : List.filter (has_priority p) (x :: l) = []).
      { apply filter_priority_below. subst p. constructor; [exact E|].
        eapply Forall_impl; [exact Hx|]. unfold prio_ge. intros y Hy. lia. }
      rewrite Hlow. reflexivity.
    + rewrite app_nil_r. reflexivity.
  - change ((x :: l) ++ [o]) with (x :: (l ++ [o])).
    cbn [List.filter]. rewrite IH. reflexivity.
Qed.

Lemma sort_desc_stable (p : Z) (l : list Option) :
  List.filter (has_priority p) (sort_desc l) = List.filter (has_priority p) l.
Proof.
  induction l as [|o l IH] using rev_ind; [reflexivity|].
  rewrite sort_desc_snoc, (insert_desc_stable p o _ (sort_desc_sorted l)).
  rewrite !List.filter_app, IH. reflexivity.
Qed.

(** ** [_compile_opts] and the alias table *)

Lemma compile_alias_eq (o : Option) (data : gmap string Param) (a : string) :
  compile_alias o data a !! a = Some (new_entry o (data !! a)).
Proof. unfold compile_alias. apply lookup_insert_eq. Qed.

Lemma compile_alias_ne (o : Option) (data : gmap string Param) (a b : string) :
  a <> b -> compile_alias o data a !! b = data !! b.
Proof. intros Hne. unfold compile_alias. apply lookup_insert_ne. exact Hne. Qed.

Lemma fold_compile_alias (o : Option) (l : list string) (data : gmap string Param)
    (a : string) :
  NoDup l ->
  fold_left (compile_alias o) l data !! a
  = if decide (a ∈ l) then Some (new_entry o (data !! a)) else data !! a.
Proof.
  intros Hnd. revert data.
  induction Hnd as [|x l Hx Hnd IH]; intros data; simpl.
  - destruct (decide (a ∈ [])) as [Hin|_]; [inversion Hin|reflexivity].
  - rewrite IH.
    destruct (decide (a = x)) as [->|Hne].
    + rewrite compile_alias_eq.
      destruct (decide (x ∈ l)) as [Hin|_]; [contradiction|].
      destruct (decide (x ∈ x :: l)) as [_|Hn]; [reflexivity|].
      exfalso. apply Hn. left.
    + rewrite compile_alias_ne by congruence.
      destruct (decide (a ∈ l)) as [Hin|Hnin];
        destruct (decide (a ∈ x :: l)) as [Hin'|Hnin']; try reflexivity.
      * exfalso. apply Hnin'. right. exact Hin.
      * exfalso. apply elem_of_cons in Hin' as [?|?]; contradiction.
Qed.

(** What [_compile_opts] leaves under each key. *)
Lemma compile_opts_lookup (o : Option) (data : gmap string Param) (a : string) :
  _compile_opts o data !! a
  = if declares a o then Some (new_entry o (data !! a)) else data !! a.
Proof.
  unfold _compile_opts, declares.
  rewrite (fold_compile_alias o _ data a (NoDup_elements (aliases o))).
  destruct (decide (a ∈ elements (aliases o))) as [Hin|Hnin].
  - apply elem_of_elements in Hin. rewrite (bool_decide_eq_true_2 _ Hin). reflexivity.
  - assert (Hn : a ∉ aliases o) by (intros H; apply Hnin, elem_of_elements, H).
    rewrite (bool_decide_eq_false_2 _ Hn). reflexivity.
Qed.

Lemma sort_desc_nil_inv (l : list Option) : sort_desc l = [] -> l = [].
Proof.
  intros H. apply Permutation_nil. rewrite <- H. apply sort_desc_perm.
Qed.

Lemma alias_inv_step (regs : list Option) (data : gmap string Param) (o : Option) :
  alias_inv regs data -> alias_inv (regs ++ [o]) (_compile_opts o data).
Proof.
  intros Hinv a. specialize (Hinv a).
  rewrite compile_opts_lookup, List.filter_app. cbn [List.filter].
  destruct (declares a o) eqn:Ed.
  - destruct (data !! a) as [[[|x li]| |]|]; cbn [new_entry].
    + symmetry in Hinv. apply sort_desc_nil_inv in Hinv. rewrite Hinv. reflexivity.
    + rewrite Hinv. apply sort_desc_resort.
    + rewrite Hinv. reflexivity.
    + rewrite Hinv. reflexivity.
    + rewrite Hinv. reflexivity.
  - rewrite app_nil_r. exact Hinv.
Qed.

(** C7.  Let [regs] be the options compiled into [data] so far, in
    registration order, and let the table list under every alias exactly the
    options declaring it, sorted.  After [_compile_opts(o, data)] the same
    holds for [regs] followed by [o]: every alias some option declares is
    mapped to a list, and every list in the table holds exactly the options
    that declare its alias (each as often as it was registered), in
    descending priority, options of equal priority in registration order. *)
Theorem compile_opts_preserves_alias_table
    (regs : list Option) (data : gmap string Param) (o : Option) :
  alias_inv regs data ->
  alias_inv (regs ++ [o]) (_compile_opts o data)
  /\ (forall a o', o' ∈ regs ++ [o] -> a ∈ aliases o' ->
        exists li, _compile_opts o data !! a = Some (PList li))
  /\ (forall a li, _compile_opts o data !! a = Some (PList li) ->
        li ≡ₚ List.filter (declares a) (regs ++ [o])
        /\ StronglySorted prio_ge li
        /\ forall p, List.filter (has_priority p) li
                     = List.filter (has_priority p)
                         (List.filter (declares a) (regs ++ [o]))).
Proof.
  intros Hinv. pose proof (alias_inv_step regs data o Hinv) as Hstep.
  split; [exact Hstep|]. split.
  - intros a o' Hin Hal. specialize (Hstep a).
    destruct (_compile_opts o data !! a) as [[li| |]|]; [eauto|..];
      exfalso;
      (assert (Hf : o' ∈ List.filter (declares a) (regs ++ [o]));
       [apply list_elem_of_In, List.filter_In; split;
        [apply list_elem_of_In; exact Hin
        |unfold declares; apply bool_decide_eq_true_2; exact Hal]
       |rewrite Hstep in Hf; inversion Hf]).
  - intros a li Hli. specialize (Hstep a). rewrite Hli in Hstep. subst li.
    split; [apply sort_desc_perm|]. split; [apply sort_desc_sorted|].
    intros p. apply sort_desc_stable.
Qed.

Lemma alias_inv_empty : alias_inv [] ∅.
Proof. intros a. rewrite lookup_empty. reflexivity. Qed.

Lemma compile_opts_preserves_alias_table_witness :
  _compile_opts version (_compile_opts verbose ∅) !! "-v"
  = Some (PList [version; verbose]).
Proof.
  destruct (compile_opts_preserves_alias_table [verbose]
              (_compile_opts verbose ∅) version
              (alias_inv_step [] ∅ verbose alias_inv_empty)) as [Hinv _].
  specialize (Hinv "-v").
  destruct (_compile_opts version (_compile_opts verbose ∅) !! "-v")
    as [[li| |]|]; [|discriminate Hinv..].
  rewrite Hinv. reflexivity.
Defined.

(** ** [default_params_parser]: the loop *)

Lemma setdefault_lookup (ks : list string) (data : gmap string Param) (w : string) :
  setdefault_sentences ks data !! w
  = match data !! w with
    | Some e => Some e
    | None => if bool_decide (w ∈ ks) then Some (PSentence w) else None
    end.
Proof.
  unfold setdefault_sentences. revert data.
  induction ks as [|k ks IH]; intros data; simpl.
  - destruct (data !! w); reflexivity.
  - rewrite IH. unfold setdefault_sentence.
    destruct (decide (w = k)) as [->|Hne].
    + destruct (data !! k) as [e|] eqn:Ek.
      * rewrite Ek. reflexivity.
      * rewrite lookup_insert_eq.
        rewrite bool_decide_eq_true_2 by left. reflexivity.
    + assert (Hk : match data !! k with
                   | Some _ => data
                   | None => <[k:=PSentence k]> data
                   end !! w = data !! w).
      { destruct (data !! k); [reflexivity|].
        apply lookup_insert_ne. congruence. }
      rewrite Hk. destruct (data !! w); [reflexivity|].
      destruct (decide (w ∈ ks)) as [Hin|Hnin].
      * rewrite !bool_decide_eq_true_2; [reflexivity|right; exact Hin|exact Hin].
      * rewrite !bool_decide_eq_false_2; [reflexivity| |exact Hnin].
        intros Hin. apply elem_of_cons in Hin as [?|?]; contradiction.
Qed.

(** *** The loop over a subcommand's options *)

Lemma sub_option_step_params (st : SubLoop) (o : Option) :
  sl_params (sub_option_step st o)
  = setdefault_sentences (requires o) (_compile_opts o (sl_params st)).
Proof.
  unfold sub_option_step. destruct (requires o); reflexivity.
Qed.

Lemma sub_option_step_len (st : SubLoop) (o : Option) :
  sl_require_len (sub_option_step st o)
  = Nat.max (length (requires o)) (sl_require_len st).
Proof.
  unfold sub_option_step. destruct (requires o); reflexivity.
Qed.

Lemma sub_loop_len (l : list Option) (st : SubLoop) :
  sl_require_len (fold_left sub_option_step l st)
  = Nat.max (max_requires requires l) (sl_require_len st).
Proof.
  revert st. induction l as [|o l IH]; intros st; simpl; [reflexivity|].
  rewrite IH, sub_option_step_len. lia.
Qed.

Lemma sub_loop_ids (l : list Option) (st : SubLoop) :
  sl_ids st ⊆ sl_ids (fold_left sub_option_step l st).
Proof.
  revert st. induction l as [|o l IH]; intros st; simpl; [reflexivity|].
  etransitivity; [|apply IH]. unfold sub_option_step.
  destruct (list_truthy (requires o)); simpl; set_solver.
Qed.

Lemma sub_loop_some (l : list Option) (st : SubLoop) (w : string) :
  is_Some (sl_params st !! w) ->
  is_Some (sl_params (fold_left sub_option_step l st) !! w).
Proof.
  revert st. induction l as [|o l IH]; intros st Hs; simpl; [exact Hs|].
  apply IH. rewrite sub_option_step_params, setdefault_lookup, compile_opts_lookup.
  destruct (declares w o); [eauto|].
  destruct Hs as [e He]. rewrite He. eauto.
Qed.

Lemma sub_loop_requires (l : list Option) (st : SubLoop) (o : Option) (w : string) :
  o ∈ l -> w ∈ requires o ->
  is_Some (sl_params (fold_left sub_option_step l st) !! w).
Proof.
  revert st. induction l as [|x l IH]; intros st Hin Hw; [inversion Hin|].
  simpl. apply elem_of_cons in Hin as [->|Hin]; [|apply IH; assumption].
  apply sub_loop_some.
  rewrite sub_option_step_params, setdefault_lookup.
  destruct (_compile_opts x (sl_params st) !! w); [eauto|].
  rewrite bool_decide_eq_true_2 by exact Hw. eauto.
Qed.

(** A key that no option of the loop declares as an alias is only touched by
    [setdefault]. *)
Lemma sub_loop_untouched (l : list Option) (st : SubLoop) (w : string) :
  (forall o, o ∈ l -> w ∉ aliases o) ->
  sl_params (fold_left sub_option_step l st) !! w
  = match sl_params st !! w with
    | Some e => Some e
    | None =>
        if bool_decide (Exists (fun o => w ∈ requires o) l)
        then Some (PSentence w) else None
    end.
Proof.
  revert st. induction l as [|x l IH]; intros st Hno; simpl.
  - destruct (sl_params st !! w); reflexivity.
  - rewrite IH by (intros o Ho; apply Hno; right; exact Ho).
    rewrite sub_option_step_params, setdefault_lookup, compile_opts_lookup.
    assert (Hx : declares w x = false).
    { unfold declares. apply bool_decide_eq_false_2. apply Hno. left. }
    rewrite Hx. destruct (sl_params st !! w) as [e|]; [reflexivity|].
    destruct (decide (w ∈ requires x)) as [Hin|Hnin].
    + rewrite (bool_decide_eq_true_2 (w ∈ requires x)) by exact Hin.
      rewrite bool_decide_eq_true_2; [reflexivity|]. left. exact Hin.
    + rewrite (bool_decide_eq_false_2 (w ∈ requires x)) by exact Hnin.
      destruct (decide (Exists (fun o => w ∈ requires o) l)) as [He|Hne].
      * rewrite !bool_decide_eq_true_2; [reflexivity|right; exact He|exact He].
      * rewrite !bool_decide_eq_false_2; [reflexivity| |exact Hne].
        intros H. apply Exists_cons in H as [?|?]; contradiction.
Qed.

(** *** The branch on the kind of node *)

Lemma register_node_table_other (position : nat) (opts : Node)
    (cp : gmap string Param) (ids : gset string) (w : string) :
  ~ names_node w opts ->
  (register_node position opts cp ids).1.2 !! w = cp !! w.
Proof.
  destruct opts as [o|s]; simpl; intros Hn.
  - rewrite compile_opts_lookup. unfold declares.
    rewrite bool_decide_eq_false_2 by exact Hn. reflexivity.
  - apply lookup_insert_ne. congruence.
Qed.

Lemma register_node_table_some (position : nat) (opts : Node)
    (cp : gmap string Param) (ids : gset string) (w : string) :
  is_Some (cp !! w) -> is_Some ((register_node position opts cp ids).1.2 !! w).
Proof.
  destruct opts as [o|s]; simpl; intros [e He].
  - rewrite compile_opts_lookup. destruct (declares w o); [eauto|].
    rewrite He. eauto.
  - destruct (decide (s_name s = w)) as [->|Hne].
    + rewrite lookup_insert_eq. eauto.
    + rewrite lookup_insert_ne by exact Hne. rewrite He. eauto.
Qed.

Lemma register_node_ids (position : nat) (opts : Node)
    (cp : gmap string Param) (ids : gset string) :
  ids ⊆ (register_node position opts cp ids).2.
Proof.
  destruct opts as [o|s]; simpl; [set_solver|].
  etransitivity; [|apply sub_loop_ids]. simpl. set_solver.
Qed.

Lemma register_node_compiled (position : nat) (opts : Node)
    (cp : gmap string Param) (ids : gset string) :
  node_compiled opts (register_node position opts cp ids).1.1.
Proof.
  destruct opts as [o|s]; simpl; [reflexivity|].
  eexists. split; [reflexivity|]. unfold sub_compiled. cbn.
  split; [reflexivity|]. split; [reflexivity|]. split.
  - unfold sub_part_len_bound. rewrite sub_loop_len. simpl.
    rewrite Nat.max_0_r. reflexivity.
  - intros o w Ho Hw. split.
    + eapply sub_loop_requires; eassumption.
    + intros Hnone Hno. rewrite sub_loop_untouched by exact Hno.
      simpl. rewrite Hnone.
      rewrite bool_decide_eq_true_2; [reflexivity|].
      apply Exists_exists. exists o. split; assumption.
Qed.

(** *** One round of the outer loop *)

Section Step.
Variables (st : Loop) (opts : Node).

Let reg :=
  register_node (length (lp_done st)) opts
    (command_params (lp_analyser st)) (param_ids (lp_analyser st)).

Lemma parser_step_table :
  command_params (lp_analyser (parser_step st opts))
  = setdefault_sentences (node_requires opts) reg.1.2.
Proof.
  unfold parser_step. subst reg.
  destruct (register_node _ _ _ _) as [[n c] i].
  destruct (node_requires opts); reflexivity.
Qed.

Lemma parser_step_ids :
  param_ids (lp_analyser (parser_step st opts))
  = reg.2 ∪ list_to_set (node_requires opts).
Proof.
  unfold parser_step. subst reg.
  destruct (register_node _ _ _ _) as [[n c] i].
  destruct (node_requires opts); simpl; [|reflexivity].
  rewrite union_empty_r_L. reflexivity.
Qed.

Lemma parser_step_len :
  lp_require_len (parser_step st opts)
  = Nat.max (length (node_requires opts)) (lp_require_len st).
Proof.
  unfold parser_step.
  destruct (register_node _ _ _ _) as [[n c] i].
  destruct (node_requires opts); reflexivity.
Qed.

Lemma parser_step_done :
  lp_done (parser_step st opts) = lp_done st ++ [reg.1.1].
Proof.
  unfold parser_step. subst reg.
  destruct (register_node _ _ _ _) as [[n c] i].
  destruct (node_requires opts); reflexivity.
Qed.

Lemma parser_step_const :
  alconna_options (lp_analyser (parser_step st opts))
    = alconna_options (lp_analyser st)
  /\ need_main_args (lp_analyser (parser_step st opts))
    = need_main_args (lp_analyser st).
Proof.
  unfold parser_step.
  destruct (register_node _ _ _ _) as [[n c] i].
  destruct (node_requires opts); split; reflexivity.
Qed.

Lemma parser_step_part_len :
  part_len (lp_analyser (parser_step st opts))
  = Some (range (length (alconna_options (lp_analyser st))
                 + (if need_main_args (lp_analyser st) then 1 else 0)
                 + lp_require_len (parser_step st opts))).
Proof.
  unfold parser_step.
  destruct (register_node _ _ _ _) as [[n c] i].
  destruct (node_requires opts); reflexivity.
Qed.
End Step.

(** *** The outer loop *)

Lemma loop_len (l : list Node) (st : Loop) :
  lp_require_len (fold_left parser_step l st)
  = Nat.max (max_requires node_requires l) (lp_require_len st).
Proof.
  revert st. induction l as [|n l IH]; intros st; simpl; [reflexivity|].
  rewrite IH, parser_step_len. lia.
Qed.

Lemma loop_const (l : list Node) (st : Loop) :
  alconna_options (lp_analyser (fold_left parser_step l st))
    = alconna_options (lp_analyser st)
  /\ need_main_args (lp_analyser (fold_left parser_step l st))
    = need_main_args (lp_analyser st).
Proof.
  revert st. induction l as [|n l IH]; intros st; simpl; [split; reflexivity|].
  destruct (IH (parser_step st n)) as [H1 H2].
  destruct (parser_step_const st n) as [H3 H4].
  rewrite H1, H2, H3, H4. split; reflexivity.
Qed.

(** After at least one round [part_len] is the value the last round gave
    it; without a round it is never assigned. *)
Lemma loop_part_len (l : list Node) (st : Loop) :
  l <> [] ->
  part_len (lp_analyser (fold_left parser_step l st))
  = Some (range (length (alconna_options (lp_analyser st))
                 + (if need_main_args (lp_analyser st) then 1 else 0)
                 + Nat.max (max_requires node_requires l) (lp_require_len st))).
Proof.
  intros Hne. rewrite <- loop_len.
  destruct l as [|n l] using rev_ind; [congruence|]. clear IHl Hne.
  rewrite fold_left_app. simpl. rewrite parser_step_part_len.
  destruct (loop_const l st) as [-> ->]. reflexivity.
Qed.

Lemma loop_ids_mono (l : list Node) (st : Loop) :
  param_ids (lp_analyser st) ⊆ param_ids (lp_analyser (fold_left parser_step l st)).
Proof.
  revert st. induction l as [|n l IH]; intros st; simpl; [reflexivity|].
  etransitivity; [|apply IH]. rewrite parser_step_ids.
  pose proof (register_node_ids (length (lp_done st)) n
                (command_params (lp_analyser st)) (param_ids (lp_analyser st))).
  set_solver.
Qed.

Lemma loop_table_some (l : list Node) (st : Loop) (w : string) :
  is_Some (command_params (lp_analyser st) !! w) ->
  is_Some (command_params (lp_analyser (fold_left parser_step l st)) !! w).
Proof.
  revert st. induction l as [|n l IH]; intros st Hs; simpl; [exact Hs|].
  apply IH. rewrite parser_step_table, setdefault_lookup.
  destruct (register_node_table_some (length (lp_done st)) n _
              (param_ids (lp_analyser st)) w Hs) as [e He].
  rewrite He. eauto.
Qed.

Lemma loop_requires (l : list Node) (st : Loop) (n : Node) (w : string) :
  n ∈ l -> w ∈ node_requires n ->
  w ∈ param_ids (lp_analyser (fold_left parser_step l st))
  /\ is_Some (command_params (lp_analyser (fold_left parser_step l st)) !! w).
Proof.
  revert st. induction l as [|x l IH]; intros st Hin Hw; [inversion Hin|].
  simpl. apply elem_of_cons in Hin as [->|Hin]; [|apply IH; assumption].
  split.
  - apply (loop_ids_mono l (parser_step st x)). rewrite parser_step_ids.
    apply elem_of_union_r, elem_of_list_to_set. exact Hw.
  - apply loop_table_some. rewrite parser_step_table, setdefault_lookup.
    destruct (_ !! w); [eauto|].
    rewrite bool_decide_eq_true_2 by exact Hw. eauto.
Qed.

(** A key that names no node of the loop is only touched by [setdefault]. *)
Lemma loop_untouched (l : list Node) (st : Loop) (w : string) :
  (forall n, n ∈ l -> ~ names_node w n) ->
  command_params (lp_analyser (fold_left parser_step l st)) !! w
  = match command_params (lp_analyser st) !! w with
    | Some e => Some e
    | None =>
        if bool_decide (Exists (fun n => w ∈ node_requires n) l)
        then Some (PSentence w) else None
    end.
Proof.
  revert st. induction l as [|x l IH]; intros st Hno; simpl.
  - destruct (command_params (lp_analyser st) !! w); reflexivity.
  - rewrite IH by (intros n Hn; apply Hno; right; exact Hn).
    rewrite parser_step_table, setdefault_lookup.
    rewrite register_node_table_other by (apply Hno; left).
    destruct (command_params (lp_analyser st) !! w) as [e|]; [reflexivity|].
    destruct (decide (w ∈ node_requires x)) as [Hin|Hnin].
    + rewrite (bool_decide_eq_true_2 (w ∈ node_requires x)) by exact Hin.
      rewrite bool_decide_eq_true_2; [reflexivity|]. left. exact Hin.
    + rewrite (bool_decide_eq_false_2 (w ∈ node_requires x)) by exact Hnin.
      destruct (decide (Exists (fun n => w ∈ node_requires n) l)) as [He|Hne].
      * rewrite !bool_decide_eq_true_2; [reflexivity|right; exact He|exact He].
      * rewrite !bool_decide_eq_false_2; [reflexivity| |exact Hne].
        intros H. apply Exists_cons in H as [?|?]; contradiction.
Qed.

Lemma loop_done_prefix (l : list Node) (st : Loop) :
  exists rest, lp_done (fold_left parser_step l st) = lp_done st ++ rest.
Proof.
  revert st. induction l as [|x l IH]; intros st; simpl.
  - exists []. rewrite app_nil_r. reflexivity.
  - destruct (IH (parser_step st x)) as [rest Hrest].
    rewrite Hrest, parser_step_done, <- app_assoc. eauto.
Qed.

Lemma loop_done_lookup (l : list Node) (st : Loop) (i : nat) (n : Node) :
  l !! i = Some n ->
  exists n', lp_done (fold_left parser_step l st) !! (length (lp_done st) + i)
             = Some n'
             /\ node_compiled n n'.
Proof.
  revert st i. induction l as [|x l IH]; intros st i Hi; [discriminate|].
  simpl. destruct i as [|i].
  - injection Hi as ->.
    destruct (loop_done_prefix l (parser_step st n)) as [rest Hrest].
    rewrite Hrest, parser_step_done, <- app_assoc. simpl.
    eexists. split.
    + rewrite Nat.add_0_r. apply list_lookup_middle. reflexivity.
    + apply register_node_compiled.
  - simpl in Hi. destruct (IH (parser_step st x) i Hi) as (n' & Hl & Hc).
    exists n'. split; [|exact Hc].
    rewrite parser_step_done, length_app in Hl. simpl in Hl.
    replace (length (lp_done st) + S i) with (length (lp_done st) + 1 + i) by lia.
    exact Hl.
Qed.

(** ** [part_len] and [sub_part_len] *)

(** With at least one top-level option, [part_len] is the bound. *)
Lemma part_len_some_options (an : Analyser) :
  alconna_options an <> [] ->
  part_len (default_params_parser an) = Some (part_len_bound an).
Proof.
  intros Hne. unfold default_params_parser, parser_loop. cbn [part_len].
  rewrite (loop_part_len _ _ Hne). simpl. rewrite Nat.max_0_r. reflexivity.
Qed.

(** Without options the loop body, which holds the assignment (lines
    51-53), is never entered. *)
Lemma part_len_no_options (an : Analyser) :
  alconna_options an = [] ->
  part_len (default_params_parser an) = part_len an.
Proof.
  intros Hnil. unfold default_params_parser, parser_loop. rewrite Hnil.
  reflexivity.
Qed.

(** Every subcommand gets its [sub_part_len], also one without options: the
    assignment of line 43 stands after the inner loop. *)
Lemma sub_part_len_compiled (an : Analyser) (i : nat) (s : Subcommand) :
  alconna_options an !! i = Some (NSubcommand s) ->
  exists s', alconna_options (default_params_parser an) !! i = Some (NSubcommand s')
             /\ sub_part_len s' = Some (sub_part_len_bound s).
Proof.
  intros Hi. unfold default_params_parser, parser_loop. cbn [alconna_options].
  destruct (loop_done_lookup _ {| lp_analyser := an; lp_require_len := 0; lp_done := [] |}
              i _ Hi) as (n' & Hl & s' & -> & _ & _ & Hlen & _).
  exists s'. split; [exact Hl|exact Hlen].
Qed.

(** C6.  For a command with at least one top-level option or subcommand
    (as every command given to the parser has: an Alconna holds at least
    its built-in options, and [analyse_option] and [analyse_subcommand]
    append a node before the call), [part_len] after [default_params_parser]
    is [range(N)] with [N] the number of top-level options, plus one if main
    args are needed, plus the length of the longest requirement chain of a
    top-level option (0 when none has requires); and every subcommand has
    [sub_part_len] the analogous [range] over its own options, its nargs
    and the requirement chains of its options. *)
Theorem part_len_compiled (an : Analyser) :
  alconna_options an <> [] ->
  part_len (default_params_parser an) = Some (part_len_bound an)
  /\ forall i s, alconna_options an !! i = Some (NSubcommand s) ->
       exists s',
         alconna_options (default_params_parser an) !! i = Some (NSubcommand s')
         /\ sub_part_len s' = Some (sub_part_len_bound s).
Proof.
  intros Hne. split.
  - apply part_len_some_options. exact Hne.
  - intros i s Hi. apply sub_part_len_compiled. exact Hi.
Qed.

Lemma part_len_compiled_witness :
  part_len (default_params_parser with_subcommand) = Some (range 4)
  /\ exists s',
       alconna_options (default_params_parser with_subcommand) !! 0
         = Some (NSubcommand s')
       /\ sub_part_len s' = Some (range 3).
Proof.
  destruct (part_len_compiled with_subcommand) as [Hlen Hsub]; [discriminate|].
  split; [exact Hlen|].
  destruct (Hsub 0 set_subcommand eq_refl) as (s' & Hl & Hs).
  exists s'. split; [exact Hl|exact Hs].
Defined.

(** ** Requirement words in the alias tables *)

(** C8, as amended.  After [default_params_parser], every requirement word
    [w] of a top-level node is in [param_ids] and has an entry in
    [command_params]; the entry is a Sentence named [w] when [w] had no entry
    before the run and names no top-level node (is no alias of a top-level
    option and no name of a top-level subcommand, declared before or after).
    Likewise every requirement word of an option of a subcommand has an
    entry in that subcommand's [sub_params], a Sentence of that name when it
    had no entry before and is no alias of an option of the subcommand. *)
Theorem requirement_words_compiled (an : Analyser) :
  (forall n w, n ∈ alconna_options an -> w ∈ node_requires n ->
     w ∈ param_ids (default_params_parser an)
     /\ is_Some (command_params (default_params_parser an) !! w)
     /\ (command_params an !! w = None ->
         (forall n', n' ∈ alconna_options an -> ~ names_node w n') ->
         command_params (default_params_parser an) !! w = Some (PSentence w)))
  /\ (forall i s, alconna_options an !! i = Some (NSubcommand s) ->
      exists s',
        alconna_options (default_params_parser an) !! i = Some (NSubcommand s')
        /\ forall o w, o ∈ s_options s -> w ∈ requires o ->
             is_Some (sub_params s' !! w)
             /\ (sub_params s !! w = None ->
                 (forall o', o' ∈ s_options s -> w ∉ aliases o') ->
                 sub_params s' !! w = Some (PSentence w))).
Proof.
  split.
  - intros n w Hn Hw. unfold default_params_parser, parser_loop.
    cbn [param_ids command_params].
    destruct (loop_requires (alconna_options an)
                {| lp_analyser := an; lp_require_len := 0; lp_done := [] |}
                n w Hn Hw) as [Hid Hsome].
    split; [exact Hid|]. split; [exact Hsome|].
    intros Hnone Hno. rewrite loop_untouched by exact Hno.
    simpl. rewrite Hnone.
    rewrite bool_decide_eq_true_2; [reflexivity|].
    apply Exists_exists. exists n. split; assumption.
  - intros i s Hi. unfold default_params_parser, parser_loop.
    cbn [alconna_options].
    destruct (loop_done_lookup _
                {| lp_analyser := an; lp_require_len := 0; lp_done := [] |}
                i _ Hi) as (n' & Hl & s' & -> & _ & _ & _ & Hreq).
    exists s'. split; [exact Hl|exact Hreq].
Qed.

Lemma requirement_words_compiled_witness :
  command_params (default_params_parser with_subcommand) !! "perm"
    = Some (PSentence "perm")
  /\ exists s',
       alconna_options (default_params_parser with_subcommand) !! 0
         = Some (NSubcommand s')
       /\ sub_params s' !! "bar" = Some (PSentence "bar").
Proof.
  destruct (requirement_words_compiled with_subcommand) as [Htop Hsub].
  split.
  - destruct (Htop (NSubcommand set_subcommand) "perm") as (_ & _ & H).
    + left.
    + left.
    + apply H; [reflexivity|].
      intros n' Hn'. apply elem_of_cons in Hn' as [->|Hn'].
      * simpl. discriminate.
      * apply list_elem_of_singleton in Hn' as ->. simpl.
        unfold verbose. simpl.
        rewrite elem_of_union, !elem_of_singleton. intros [?|?]; discriminate.
  - destruct (Hsub 0 set_subcommand eq_refl) as (s' & Hl & Hreq).
    exists s'. split; [exact Hl|].
    destruct (Hreq foo_requires_bar "bar") as [_ H].
    + left.
    + left.
    + apply H; [reflexivity|].
      intros o' Ho'. apply list_elem_of_singleton in Ho' as ->.
      unfold foo_requires_bar. simpl.
      rewrite elem_of_singleton. discriminate.
Defined.

(** C8, as stated, fails on [late_alias]: the word [bar] that [--foo]
    requires has no entry when line 50 reaches it, so a Sentence is put
    there; the option [bar], declared later, then replaces the Sentence by
    its own list. *)
Lemma sentence_replaced_by_later_option :
  ~ (forall cp, table_before_requires late_alias 0 = Some cp ->
       cp !! "bar" = None ->
       command_params (default_params_parser late_alias) !! "bar"
       = Some (PSentence "bar")).
Proof.
  intros H.
  specialize (H (_compile_opts foo_requires_bar ∅) eq_refl eq_refl).
  vm_compute in H. discriminate.
Qed.

(** * Further properties of the modelled code *)

(** ** What a query can raise *)

Lemma split_dot_not_nil (s : string) : split_dot s <> [].
Proof.
  induction s as [|c s IH]; simpl; [discriminate|].
  destruct (Ascii.eqb c dot); [discriminate|].
  destruct (split_dot s); discriminate.
Qed.

Lemma handle_opt_sound (_pf : string) (_parts : list string)
    (_opts : dict OptionResult) :
  (_pf = "options" -> _parts <> []) ->
  sound_lookup (_handle_opt _pf _parts _opts).
Proof.
  intros Hne. unfold _handle_opt.
  destruct (String.eqb _pf "options") eqn:E.
  - apply String.eqb_eq in E. specialize (Hne E).
    destruct _parts as [|x rest]; [congruence|]. simpl.
    destruct rest as [|y rest]; simpl; [exact I|].
    destruct (get x _opts); simpl; [|exact I].
    destruct (String.eqb y "value"); simpl; [reflexivity|exact I].
  - simpl. destruct _parts as [|y rest]; simpl; [exact I|].
    destruct (get _pf _opts); simpl; [|exact I].
    destruct (String.eqb y "value"); simpl; [reflexivity|exact I].
Qed.

Lemma require_sub_sound (prefix : string) (parts : list string) (r : Arparma) :
  parts <> [] -> sound_lookup (require_sub prefix parts r).
Proof.
  intros Hne. unfold require_sub.
  assert (Hbody : forall pf ps,
    sound_lookup
      (match ps with
       | [] => Ok (SSubcommands (subcommands r), EStr pf)
       | e :: parts0 =>
           match get pf (subcommands r) with
           | None => Ok (SSubcommands (subcommands r), EStr pf)
           | Some _src =>
               if String.eqb e "value" then Ok (SSub _src, EStr e)
               else if String.eqb e "args" then
                 match parts0 with
                 | x :: _ => Ok (SArgs (sub_args _src), EStr x)
                 | [] => Ok (SSub _src, EStr e)
                 end
               else if String.eqb e "options"
                       && (contains e (sub_options _src)
                           || match parts0 with [] => true | _ => false end)
               then Raise (ambiguous (pf ++ "." ++ e))
               else if String.eqb e "options" || contains e (sub_options _src)
               then _handle_opt e parts0 (sub_options _src)
               else Ok (SArgs (sub_args _src), EStr e)
           end
       end)).
  { intros pf ps. destruct ps as [|e parts0]; [exact I|].
    destruct (get pf (subcommands r)) as [_src|]; [|exact I].
    destruct (String.eqb e "value") eqn:Ev.
    { apply String.eqb_eq in Ev. subst e. reflexivity. }
    destruct (String.eqb e "args") eqn:Ea.
    { apply String.eqb_eq in Ea. subst e.
      destruct parts0; [reflexivity|exact I]. }
    destruct (String.eqb e "options") eqn:Eo; simpl.
    - destruct (contains e (sub_options _src)); simpl; [eexists; reflexivity|].
      destruct parts0 as [|y rest]; [eexists; reflexivity|].
      apply handle_opt_sound. discriminate.
    - destruct (contains e (sub_options _src)); [|exact I].
      apply handle_opt_sound. intros ->. discriminate. }
  destruct (String.eqb prefix "subcommands").
  - destruct parts as [|x rest]; [congruence|]. simpl. apply Hbody.
  - simpl. apply Hbody.
Qed.

Lemma require_sound (parts : list string) (r : Arparma) :
  parts <> [] -> sound_lookup (__require__ parts r).
Proof.
  intros Hne. destruct parts as [|p [|q rest]]; [congruence| |].
  - unfold __require__. destruct (first_source p r) as [src|] eqn:Efs.
    + unfold first_source in Efs.
      repeat (destruct (contains p _) in Efs; [injection Efs as <-; exact I|]).
      discriminate.
    + destruct (is_dict_attr p) eqn:Ed.
      * unfold getattr_dict. repeat (destruct (String.eqb p _)); exact I.
      * destruct (String.eqb p "args"); exact I.
  - unfold __require__.
    destruct ((String.eqb p "options" || String.eqb p "subcommands")
              && in_components p r); [eexists; reflexivity|].
    destruct (String.eqb p "options" || contains p (options r)).
    { apply handle_opt_sound. discriminate. }
    destruct (String.eqb p "subcommands" || contains p (subcommands r)).
    { apply require_sub_sound. discriminate. }
    cbv zeta.
    destruct (String.eqb _ "main_args" || String.eqb _ "other_args"); [|exact I].
    unfold getattr_dict. repeat (destruct (String.eqb _ _)); exact I.
Qed.

(** X1.  Where the errors of [query] come from.  [__require__] raises
    nothing but the ambiguity error, on any path: in particular no
    IndexError on an exhausted segment list.  [query] raises that error or,
    when the lookup ends at the result record of an option or subcommand,
    the AttributeError of calling [get] on the record; the endpoint is then
    true, so the [MappingProxyType] branch with its TypeError is never
    taken on a record.  A one-segment path never raises. *)
Theorem query_error_sources (path : string) (d : QVal) (r : Arparma) :
  (forall e, __require__ (split_dot path) r = Raise e -> exists t, e = ambiguous t)
  /\ (forall e, query path d r = Raise e ->
        (exists t, e = ambiguous t)
        \/ (e = NoSuchAttribute "get"
            /\ exists src ep, __require__ (split_dot path) r = Ok (src, ep)
                 /\ result_record src = true /\ endpoint_truthy ep = true))
  /\ (no_dot path = true -> exists v, query path d r = Ok v).
Proof.
  pose proof (require_sound (split_dot path) r (split_dot_not_nil path)) as H.
  split; [|split].
  - intros e He. rewrite He in H. exact H.
  - intros e. unfold query, query_parts.
    destruct (__require__ (split_dot path) r) as [[src ep]|e'] eqn:Er; simpl.
    + destruct src; simpl in H;
        try (destruct (endpoint_truthy ep); discriminate);
        rewrite H; intros [= <-]; right; (split; [reflexivity|]);
        eexists _, ep; repeat split; exact H.
    + intros [= <-]. left. exact H.
  - intros Hdot. unfold query. rewrite (split_dot_no_dot _ Hdot).
    unfold query_parts, __require__.
    destruct (first_source path r) as [src|] eqn:Efs.
    + unfold first_source in Efs.
      repeat (destruct (contains path _) in Efs;
              [injection Efs as <-; simpl;
               destruct (negb (String.eqb path "")); eauto|]).
      discriminate.
    + destruct (is_dict_attr path).
      * unfold getattr_dict.
        repeat (destruct (String.eqb path _); [simpl; eauto|]). simpl. eauto.
      * destruct (String.eqb path "args"); simpl; eauto.
Qed.

Lemma query_error_sources_witness :
  (exists v, query "foo" (QAny ANone) both_foo = Ok v)
  /\ (exists t, RuntimeError "ambiguous name: bar.options" = ambiguous t)
  /\ ((exists t, NoSuchAttribute "get" = ambiguous t)
      \/ (NoSuchAttribute "get" = NoSuchAttribute "get"
          /\ exists src ep,
               __require__ (split_dot "options.foo.value") foo_and_bar = Ok (src, ep)
               /\ result_record src = true /\ endpoint_truthy ep = true)).
Proof.
  split; [|split].
  - apply (proj2 (proj2 (query_error_sources "foo" (QAny ANone) both_foo))).
    reflexivity.
  - apply (proj1 (query_error_sources "subcommands.bar.options"
                    (QAny ANone) foo_and_bar)).
    reflexivity.
  - apply (proj1 (proj2 (query_error_sources "options.foo.value"
                           (QAny ANone) foo_and_bar))).
    reflexivity.
Defined.

(** ** Scoped paths *)

Lemma in_components_false (k : string) (r : Arparma) :
  in_components k r = false ->
  contains k (options r) = false /\ contains k (subcommands r) = false.
Proof. unfold in_components. intros H. apply orb_false_iff in H. exact H. Qed.

Lemma endpoint_truthy_str (s : string) : s <> "" -> endpoint_truthy (EStr s) = true.
Proof. intros H. simpl. rewrite (eqb_false_of_ne _ _ H). reflexivity. Qed.

(** X2.  A path scoped by [options] or [subcommands] whose second segment
    names no entry of that dict gives the default, whatever segments
    follow. *)
Theorem query_scoped_missing
    (path scope nm : string) (rest : list string) (d : QVal) (r : Arparma) :
  split_dot path = scope :: nm :: rest ->
  nm <> "" ->
  in_components scope r = false ->
  (scope = "options" /\ get nm (options r) = None)
  \/ (scope = "subcommands" /\ get nm (subcommands r) = None) ->
  query path d r = Ok d.
Proof.
  intros Hsplit Hnm Hamb Hcase. unfold query. rewrite Hsplit.
  unfold query_parts, __require__. rewrite Hamb, andb_false_r.
  destruct (in_components_false _ _ Hamb) as [Hco Hcs].
  destruct Hcase as [[-> Hget]|[-> Hget]].
  - cbn [String.eqb Ascii.eqb Bool.eqb orb]. unfold _handle_opt.
    cbn [String.eqb Ascii.eqb Bool.eqb bind].
    destruct rest as [|y rest]; [|rewrite Hget]; cbn [bind];
      rewrite (endpoint_truthy_str _ Hnm); simpl; rewrite Hget; reflexivity.
  - rewrite Hco. cbn [String.eqb Ascii.eqb Bool.eqb orb]. unfold require_sub.
    cbn [String.eqb Ascii.eqb Bool.eqb bind].
    destruct rest as [|y rest]; [|rewrite Hget]; cbn [bind];
      rewrite (endpoint_truthy_str _ Hnm); simpl; rewrite Hget; reflexivity.
Qed.

Lemma query_scoped_missing_witness :
  query "options.bar.value" (QAny (AInt 3)) foo_and_bar = Ok (QAny (AInt 3)).
Proof.
  apply (query_scoped_missing "options.bar.value" "options" "bar" ["value"]);
    [reflexivity|discriminate|reflexivity|left; split; reflexivity].
Defined.







(** X6.  For a name that both [main_args] and [other_args] hold and that
    is no attribute of the Arparma (so that attribute access reaches
    [__getattr__]), the two ways to read it disagree: [query] gives the
    value of [main_args], which it searches first, while attribute access,
    which reads [all_matched_args], gives the value of [other_args]. *)
Theorem query_and_getattr_disagree
    (nm : string) (v1 v2 : Any) (d : QVal) (r : Arparma) :
  attribute_name nm = false ->
  nm <> "" -> no_dot nm = true ->
  wf_dict (other_args r) ->
  get nm (main_args r) = Some v1 ->
  get nm (other_args r) = Some v2 ->
  query nm d r = Ok (QAny v1) /\ __getattr__ nm r = v2.
Proof.
  intros _ Hnm Hdot Hwf H1 H2. split.
  - rewrite query_one_segment; [unfold bare_lookup; rewrite H1; reflexivity|..];
      try assumption.
    right. unfold first_source.
    assert (Hc : contains nm (main_args r) = true) by (apply contains_get; eauto).
    rewrite Hc. discriminate.
  - unfold __getattr__, all_matched_args.
    rewrite (get_merge nm (main_args r) (other_args r) Hwf), H2. reflexivity.
Qed.

Lemma query_and_getattr_disagree_witness :
  query "n" (QAny ANone) collision = Ok (QAny (AInt 0))
  /\ __getattr__ "n" collision = AInt 9.
Proof.
  apply (query_and_getattr_disagree "n" (AInt 0) (AInt 9) (QAny ANone) collision).
  - reflexivity.
  - discriminate.
  - reflexivity.
  - unfold wf_dict. simpl. apply NoDup_cons. split.
    + rewrite list_elem_of_singleton. discriminate.
    + apply NoDup_singleton.
  - reflexivity.
  - reflexivity.
Defined.

(** ** Queries by type *)

Lemma first_of_type_spec (t : QVal -> bool) (d : QVal) (r : Arparma) :
  first_of_type t d r = d
  \/ exists x, first_of_type t d r = QAny x /\ t (QAny x) = true
               /\ x ∈ values (all_matched_args r).
Proof.
  unfold first_of_type.
  destruct (List.filter _ _) as [|x l] eqn:E; [left; reflexivity|].
  right. exists x. split; [reflexivity|].
  assert (Hin : In x (List.filter (fun v => t (QAny v)) (values (all_matched_args r))))
    by (rewrite E; left; reflexivity).
  apply List.filter_In in Hin as [Hin Ht]. split; [exact Ht|].
  apply list_elem_of_In. exact Hin.
Qed.

Lemma first_of_type_first (t : QVal -> bool) (d : QVal) (r : Arparma)
    (l1 l2 : list Any) (x : Any) :
  values (all_matched_args r) = l1 ++ x :: l2 ->
  t (QAny x) = true ->
  Forall (fun y => t (QAny y) = false) l1 ->
  first_of_type t d r = QAny x.
Proof.
  intros Hv Hx Hl1. unfold first_of_type. rewrite Hv, List.filter_app.
  assert (Hnil : List.filter (fun v => t (QAny v)) l1 = []).
  { clear Hv. induction Hl1 as [|y l Hy Hl IH]; simpl; [reflexivity|].
    rewrite Hy. exact IH. }
  rewrite Hnil. simpl. rewrite Hx. reflexivity.
Qed.

(** X7.  What [query_with] returns is of the asked type or is the default.
    Without a path, and likewise with the empty path, it is the first value
    of the asked type in [all_matched_args], in the order of that dict. *)
Theorem query_with_typed_or_default
    (arg_type : QVal -> bool) (path : Datatypes.option string) (d : QVal)
    (r : Arparma) :
  (forall v, query_with arg_type path d r = Ok v -> arg_type v = true \/ v = d)
  /\ (forall l1 l2 x,
        path = None \/ path = Some "" ->
        values (all_matched_args r) = l1 ++ x :: l2 ->
        arg_type (QAny x) = true ->
        Forall (fun y => arg_type (QAny y) = false) l1 ->
        query_with arg_type path d r = Ok (QAny x)).
Proof.
  split.
  - intros v. unfold query_with.
    assert (Hfirst : Ok (first_of_type arg_type d r) = Ok v ->
                     arg_type v = true \/ v = d).
    { intros [= <-].
      destruct (first_of_type_spec arg_type d r) as [->|(x & -> & Hx & _)];
        [right; reflexivity|left; exact Hx]. }
    destruct path as [p|]; [|exact Hfirst].
    destruct (negb (String.eqb p "")); [|exact Hfirst].
    destruct (query p (QAny AEmpty) r) as [res|e]; simpl; [|discriminate].
    intros [= <-]. destruct (arg_type res) eqn:E; [left; exact E|right; reflexivity].
  - intros l1 l2 x Hpath Hv Hx Hl1. unfold query_with.
    rewrite (first_of_type_first arg_type d r l1 l2 x Hv Hx Hl1).
    destruct Hpath as [->| ->]; reflexivity.
Qed.

Lemma query_with_typed_or_default_witness :
  query_with is_str None (QAny ANone) collision = Ok (QAny (AStr "text"))
  /\ (is_int (QAny (AInt 0)) = true \/ QAny (AInt 0) = QAny ANone).
Proof.
  split.
  - apply (proj2 (query_with_typed_or_default is_str None (QAny ANone) collision)
             [AInt 9] [] (AStr "text")).
    + left. reflexivity.
    + reflexivity.
    + reflexivity.
    + constructor; [reflexivity|constructor].
  - apply (proj1 (query_with_typed_or_default is_int (Some "n") (QAny ANone) collision)).
    reflexivity.
Defined.

(** X8.  [r[T]] for a type [T] never raises, and never returns a false
    value: it is [None], or a true value of the type.  So a first match that
    is false (a zero, an empty string) is reported as [None]. *)
Theorem getitem_type_never_false (t : QVal -> bool) (r : Arparma) :
  (exists v, __getitem__ (ItemType t) r = Ok v
             /\ (v = QAny ANone \/ (qval_truthy v = true /\ t v = true)))
  /\ (forall x, first_of_type t (QAny ANone) r = QAny x ->
        any_truthy x = false ->
        __getitem__ (ItemType t) r = Ok (QAny ANone)).
Proof.
  unfold __getitem__, query_with. cbn [bind]. split.
  - eexists. split; [reflexivity|].
    destruct (qval_truthy (first_of_type t (QAny ANone) r)) eqn:E;
      [|left; reflexivity].
    destruct (first_of_type_spec t (QAny ANone) r) as [Hd|(x & Hx & Ht & _)].
    + rewrite Hd in E. discriminate.
    + right. split; [exact E|]. rewrite Hx. exact Ht.
  - intros x Hx Hf. rewrite Hx. simpl. rewrite Hf. reflexivity.
Qed.

Lemma getitem_type_never_false_witness :
  __getitem__ (ItemType is_int) zero_count = Ok (QAny ANone).
Proof.
  apply (proj2 (getitem_type_never_false is_int zero_count) (AInt 0));
    reflexivity.
Defined.

(** X9.  [find] of a reserved word ([options], [subcommands], [main_args],
    [other_args], [args]) that is no key of the four dicts is true for
    every Arparma, also when the dict it names is empty: the query gives a
    view of the dict, which is not the [Empty] sentinel. *)
Theorem find_reserved_word (nm : string) (r : Arparma) :
  is_reserved nm = true ->
  first_source nm r = None ->
  find nm r = Ok true.
Proof.
  intros Hres Hfs.
  assert (Hcases : nm = "options" \/ nm = "subcommands" \/ nm = "main_args"
                   \/ nm = "other_args" \/ nm = "args").
  { unfold is_reserved, is_dict_attr in Hres.
    repeat (apply orb_true_iff in Hres as [Hres|Hres]);
      apply String.eqb_eq in Hres; auto 6. }
  unfold find, query.
  assert (Hdot : no_dot nm = true)
    by (destruct Hcases as [->|[->|[->|[->| ->]]]]; reflexivity).
  rewrite (split_dot_no_dot _ Hdot). unfold query_parts, __require__.
  rewrite Hfs.
  destruct Hcases as [->|[->|[->|[->| ->]]]]; reflexivity.
Qed.

Lemma find_reserved_word_witness : find "options" no_args = Ok true.
Proof. apply find_reserved_word; reflexivity. Defined.

(** ** [encapsulate_result] once more *)

Lemma encapsulate_other_args (r : Arparma) (m : dict Any)
    (o : dict OptionResult) (s : dict SubcommandResult) :
  wf_dict s ->
  other_args (encapsulate_result m o s r)
  = union_all (other_args r) (args_sequence o s).
Proof.
  intros Hwf. unfold encapsulate_result, args_sequence. cbn [other_args].
  rewrite merge_option_args_union, union_all_app.
  apply fold_subcommands_union.
  intros k v Hin. apply get_of_entry; assumption.
Qed.

(** X10.  Passing the same results to [encapsulate_result] a second time
    changes no lookup in [other_args]: what the first call merged is merged
    again over itself. *)
Theorem encapsulate_result_twice
    (r : Arparma) (m : dict Any) (o : dict OptionResult)
    (s : dict SubcommandResult) (k : string) :
  wf_dict s ->
  Forall wf_dict (args_sequence o s) ->
  get k (other_args (encapsulate_result m o s (encapsulate_result m o s r)))
  = get k (other_args (encapsulate_result m o s r)).
Proof.
  intros Hwf Hall.
  rewrite (encapsulate_other_args (encapsulate_result m o s r) m o s Hwf).
  rewrite (get_union_all k _ _ Hall).
  rewrite (encapsulate_other_args r m o s Hwf).
  rewrite (get_union_all k _ _ Hall).
  destruct (last_hit k (args_sequence o s)); reflexivity.
Qed.

Lemma encapsulate_result_twice_witness :
  get "x" (other_args
             (encapsulate_result [] [("foo", foo_option)] [("bar", foo_subcommand)]
                (encapsulate_result [] [("foo", foo_option)]
                   [("bar", foo_subcommand)] has_other)))
  = Some (AInt 5).
Proof.
  rewrite (encapsulate_result_twice has_other [] [("foo", foo_option)]
             [("bar", foo_subcommand)] "x").
  - reflexivity.
  - unfold wf_dict. simpl. apply NoDup_singleton.
  - unfold args_sequence, wf_dict. simpl.
    repeat (constructor; [apply NoDup_singleton|]). constructor.
Defined.

(** ** The behavior pipeline once more *)

(** X11.  An exception of [operate] other than BehaveCancelled and
    OutBoundsBehave leaves [execute] as it is, and no later behavior is
    entered. *)
Theorem execute_propagates
    (src : list Behavior) (bs : Datatypes.option (list Behavior))
    (r r1 r2 : Arparma) (pre post : list Behavior) (b : Behavior) (e : Exc) :
  exc_behaviors src bs = pre ++ b :: post ->
  fst (run_behaviors pre r) = Finished r1 ->
  operate b r1 = (r2, Some e) ->
  e <> BehaveCancelled ->
  (forall p, e <> OutBoundsBehave p) ->
  execute src bs r = (Raise e, map bname pre ++ [bname b]).
Proof.
  intros Hflat Hpre Hop Hc Ho. unfold execute. rewrite Hflat.
  rewrite (run_behaviors_app pre (b :: post) r r1 Hpre).
  simpl. rewrite Hop.
  destruct e; try reflexivity; [congruence|exfalso; eapply Ho; reflexivity].
Qed.

Lemma execute_propagates_witness :
  execute [] (Some [marking; crashing; marking]) no_args
  = (Raise (UserError "boom"), ["marking"; "crashing"]).
Proof.
  apply (execute_propagates [] (Some [marking; crashing; marking]) no_args
           (fst (operate marking no_args)) (fst (operate marking no_args))
           [marking] [marking] crashing (UserError "boom"));
    try reflexivity; discriminate.
Defined.




(** X13.  [requirement_handler] puts the behavior itself last and, before
    it, the flattened requirements of each behavior it requires, as one
    block each; everything reached through [requires] is in the list.  A
    behavior required twice is listed twice. *)
Theorem requirement_handler_order (b : Behavior) :
  (exists l, requirement_handler b = l ++ [b]
     /\ forall r, r ∈ requires_of b ->
          exists l1 l2, l = l1 ++ requirement_handler r ++ l2)
  /\ (forall x, needs b x -> x ∈ requirement_handler b)
  /\ (forall r, requires_of b = [r; r] ->
        requirement_handler b
        = requirement_handler r ++ requirement_handler r ++ [b]).
Proof.
  split; [|split].
  - destruct b as [n reqs f]. simpl.
    exists (flat_map requirement_handler reqs). split; [reflexivity|].
    intros r Hr. apply list_elem_of_split in Hr as (l1 & l2 & ->).
    exists (flat_map requirement_handler l1), (flat_map requirement_handler l2).
    rewrite flat_map_app. reflexivity.
  - intros x Hneeds. induction Hneeds as [b|b r x Hr Hx IH].
    + destruct b as [n reqs f]. simpl. apply elem_of_app. right. left.
    + destruct b as [n reqs f]. simpl in *. apply elem_of_app. left.
      apply list_elem_of_In, in_flat_map. exists r. split.
      * apply list_elem_of_In. exact Hr.
      * apply list_elem_of_In. exact IH.
  - intros r Hr. destruct b as [n reqs f]. simpl in *. subst reqs. simpl.
    rewrite app_nil_r, <- app_assoc. reflexivity.
Qed.

Lemma requirement_handler_order_witness :
  marking ∈ requirement_handler needs_marking.
Proof.
  apply (proj1 (proj2 (requirement_handler_order needs_marking))).
  eapply needs_step; [|apply needs_self]. left.
Defined.

(** ** What [default_params_parser] registers *)

Lemma sub_loop_ids_exact (l : list Option) (st : SubLoop) :
  sl_ids (fold_left sub_option_step l st) = sl_ids st ∪ ⋃ (aliases <$> l).
Proof.
  revert st. induction l as [|o l IH]; intros st; simpl.
  - rewrite union_empty_r_L. reflexivity.
  - rewrite IH.
    assert (Hstep : sl_ids (sub_option_step st o) = sl_ids st ∪ aliases o)
      by (unfold sub_option_step; destruct (list_truthy (requires o)); reflexivity).
    rewrite Hstep, (assoc_L (∪)). reflexivity.
Qed.

Lemma register_node_ids_exact (position : nat) (n : Node)
    (cp : gmap string Param) (ids : gset string) :
  (register_node position n cp ids).2 ∪ list_to_set (node_requires n)
  = ids ∪ node_ids n.
Proof.
  destruct n as [o|s]; simpl.
  - unfold node_ids. simpl. rewrite (assoc_L (∪)). reflexivity.
  - rewrite sub_loop_ids_exact. unfold node_ids. simpl.
    rewrite !(assoc_L (∪)). reflexivity.
Qed.

Lemma loop_ids_exact (l : list Node) (st : Loop) :
  param_ids (lp_analyser (fold_left parser_step l st))
  = param_ids (lp_analyser st) ∪ ⋃ (node_ids <$> l).
Proof.
  revert st. induction l as [|n l IH]; intros st; simpl.
  - rewrite union_empty_r_L. reflexivity.
  - rewrite IH, parser_step_ids, register_node_ids_exact, (assoc_L (∪)).
    reflexivity.
Qed.

(** X14.  After [default_params_parser], [param_ids] holds what it held
    before and, for every top-level node, the aliases of an option, the name
    of a subcommand and the aliases of that subcommand's options, and the
    node's requirement words; nothing else.  The requirement words of a
    subcommand's options are not among them unless they get in that way. *)
Theorem param_ids_compiled (an : Analyser) :
  param_ids (default_params_parser an)
  = param_ids an ∪ ⋃ (node_ids <$> alconna_options an).
Proof.
  unfold default_params_parser, parser_loop. cbn [param_ids].
  apply loop_ids_exact.
Qed.

Section StepMore.
Variables (st : Loop) (opts : Node).

Lemma parser_step_separate :
  an_separators (lp_analyser (parser_step st opts))
    = an_separators (lp_analyser st)
  /\ default_separate (lp_analyser (parser_step st opts))
    = default_separate (lp_analyser st)
      && separators_within (an_separators (lp_analyser st)) opts.
Proof.
  unfold parser_step, separators_within.
  destruct (register_node _ _ _ _) as [[n c] i].
  destruct (node_requires opts); cbn [lp_analyser an_separators default_separate];
    (split; [reflexivity|]);
    destruct (forallb _ _); rewrite ?andb_true_r, ?andb_false_r; reflexivity.
Qed.
End StepMore.

Lemma loop_separate (l : list Node) (st : Loop) :
  an_separators (lp_analyser (fold_left parser_step l st))
    = an_separators (lp_analyser st)
  /\ default_separate (lp_analyser (fold_left parser_step l st))
    = default_separate (lp_analyser st)
      && forallb (separators_within (an_separators (lp_analyser st))) l.
Proof.
  revert st. induction l as [|n l IH]; intros st; simpl.
  - rewrite andb_true_r. split; reflexivity.
  - destruct (IH (parser_step st n)) as [H1 H2].
    destruct (parser_step_separate st n) as [H3 H4].
    rewrite H1, H2, H3, H4, andb_assoc. split; reflexivity.
Qed.

(** X15.  [default_separate] stays true exactly when it was true and the
    separators of every top-level node are among the analyser's; the
    separators of the options inside a subcommand are not looked at, and a
    false flag is never set back. *)
Theorem default_separate_compiled (an : Analyser) :
  default_separate (default_params_parser an)
  = default_separate an
    && forallb (separators_within (an_separators an)) (alconna_options an).
Proof.
  unfold default_params_parser, parser_loop. cbn [default_separate].
  apply (loop_separate (alconna_options an)
           {| lp_analyser := an; lp_require_len := 0; lp_done := [] |}).
Qed.

(** *** The keys of [command_params] *)

Lemma compile_opts_dom (o : Option) (data : gmap string Param) :
  dom (_compile_opts o data) = dom data ∪ aliases o.
Proof.
  apply set_eq. intros a.
  rewrite elem_of_union, !elem_of_dom, compile_opts_lookup. unfold declares.
  destruct (decide (a ∈ aliases o)) as [Hin|Hnin].
  - rewrite bool_decide_eq_true_2 by exact Hin. split; [auto|eauto].
  - rewrite bool_decide_eq_false_2 by exact Hnin. split; [auto|].
    intros [H|H]; [exact H|contradiction].
Qed.

Lemma setdefault_dom (ks : list string) (data : gmap string Param) :
  dom (setdefault_sentences ks data) = dom data ∪ list_to_set ks.
Proof.
  apply set_eq. intros a.
  rewrite elem_of_union, !elem_of_dom, setdefault_lookup, elem_of_list_to_set.
  destruct (data !! a) as [e|].
  - split; [auto|eauto].
  - destruct (decide (a ∈ ks)) as [Hin|Hnin].
    + rewrite bool_decide_eq_true_2 by exact Hin. split; [auto|eauto].
    + rewrite bool_decide_eq_false_2 by exact Hnin.
      split; [intros [x Hx]; discriminate|].
      intros [[x Hx]|H]; [discriminate|contradiction].
Qed.

Lemma parser_step_dom (st : Loop) (n : Node) :
  dom (command_params (lp_analyser (parser_step st n)))
  = dom (command_params (lp_analyser st)) ∪ node_keys n.
Proof.
  rewrite parser_step_table, setdefault_dom. unfold node_keys.
  destruct n as [o|s]; simpl.
  - rewrite compile_opts_dom, (assoc_L (∪)). reflexivity.
  - rewrite dom_insert_L, (comm_L (∪) {[s_name s]}), (assoc_L (∪)). reflexivity.
Qed.

Lemma loop_dom (l : list Node) (st : Loop) :
  dom (command_params (lp_analyser (fold_left parser_step l st)))
  = dom (command_params (lp_analyser st)) ∪ ⋃ (node_keys <$> l).
Proof.
  revert st. induction l as [|n l IH]; intros st; simpl.
  - rewrite union_empty_r_L. reflexivity.
  - rewrite IH, parser_step_dom, (assoc_L (∪)). reflexivity.
Qed.

(** X16.  The keys of [command_params] after [default_params_parser] are the
    keys it had before together with, for every top-level node, the aliases
    of an option or the name of a subcommand, and the node's requirement
    words: no key is ever removed and no other key is written. *)
Theorem command_params_keys (an : Analyser) :
  dom (command_params (default_params_parser an))
  = dom (command_params an) ∪ ⋃ (node_keys <$> alconna_options an).
Proof.
  unfold default_params_parser, parser_loop. cbn [command_params].
  apply (loop_dom (alconna_options an)
           {| lp_analyser := an; lp_require_len := 0; lp_done := [] |}).
Qed.

(** ** The alias tables after compilation *)

Lemma alias_entry_compile (regs : list Option) (data : gmap string Param)
    (o : Option) (a : string) :
  alias_entry regs a (data !! a) ->
  alias_entry (regs ++ [o]) a (_compile_opts o data !! a).
Proof.
  unfold alias_entry. intros Hinv.
  rewrite compile_opts_lookup, List.filter_app. cbn [List.filter].
  destruct (declares a o) eqn:Ed.
  - destruct (data !! a) as [[[|x li]| |]|]; cbn [new_entry].
    + symmetry in Hinv. apply sort_desc_nil_inv in Hinv. rewrite Hinv. reflexivity.
    + rewrite Hinv. apply sort_desc_resort.
    + rewrite Hinv. reflexivity.
    + rewrite Hinv. reflexivity.
    + rewrite Hinv. reflexivity.
  - rewrite app_nil_r. exact Hinv.
Qed.

Lemma alias_entry_setdefault (regs : list Option) (data : gmap string Param)
    (ks : list string) (a : string) :
  alias_entry regs a (data !! a) ->
  alias_entry regs a (setdefault_sentences ks data !! a).
Proof.
  unfold alias_entry. rewrite setdefault_lookup.
  destruct (data !! a) as [e|]; [auto|].
  destruct (bool_decide (a ∈ ks)); auto.
Qed.

Lemma sub_loop_alias_entry (l : list Option) (st : SubLoop)
    (regs : list Option) (a : string) :
  alias_entry regs a (sl_params st !! a) ->
  alias_entry (regs ++ l) a (sl_params (fold_left sub_option_step l st) !! a).
Proof.
  revert st regs. induction l as [|o l IH]; intros st regs Hinv; simpl.
  - rewrite app_nil_r. exact Hinv.
  - replace (regs ++ o :: l) with ((regs ++ [o]) ++ l)
      by (rewrite <- app_assoc; reflexivity).
    apply IH. rewrite sub_option_step_params.
    apply alias_entry_setdefault, alias_entry_compile. exact Hinv.
Qed.

Lemma loop_done_length (l : list Node) (st : Loop) :
  length (lp_done (fold_left parser_step l st))
  = length (lp_done st) + length l.
Proof.
  revert st. induction l as [|n l IH]; intros st; simpl; [lia|].
  rewrite IH, parser_step_done, length_app. simpl. lia.
Qed.

(** The node the loop leaves at a position is what [register_node] made of
    the node found there. *)
Lemma loop_done_lookup_reg (l : list Node) (st : Loop) (i : nat) (n : Node) :
  l !! i = Some n ->
  exists cp ids,
    lp_done (fold_left parser_step l st) !! (length (lp_done st) + i)
    = Some (register_node (length (lp_done st) + i) n cp ids).1.1.
Proof.
  revert st i. induction l as [|x l IH]; intros st i Hi; [discriminate|].
  simpl. destruct i as [|i].
  - injection Hi as ->.
    destruct (loop_done_prefix l (parser_step st n)) as [rest Hrest].
    rewrite Hrest, parser_step_done, <- app_assoc. simpl.
    rewrite Nat.add_0_r. eexists _, _.
    apply list_lookup_middle. reflexivity.
  - simpl in Hi. destruct (IH (parser_step st x) i Hi) as (cp & ids & Hl).
    rewrite parser_step_done, length_app in Hl. simpl in Hl.
    replace (length (lp_done st) + S i) with (length (lp_done st) + 1 + i) by lia.
    eauto.
Qed.

(** X17.  The invariant of the alias table carries over to the
    [sub_params] of a subcommand that the command lists once: if before the
    run it lists, under every alias, exactly the options of [regs] declaring
    it, then afterwards it does so for [regs] followed by the subcommand's
    options, by descending priority and, among equals, in declaration
    order.  The table is not emptied first: compiled again, every list gets
    the subcommand's options once more.  (A subcommand object listed at two
    positions is compiled twice into its one table within a single run,
    hence the hypothesis.) *)
Theorem sub_params_compiled
    (an : Analyser) (i : nat) (s : Subcommand) (regs : list Option) :
  alconna_options an !! i = Some (NSubcommand s) ->
  (forall j, j <> i -> alconna_options an !! j <> Some (NSubcommand s)) ->
  alias_inv regs (sub_params s) ->
  exists s',
    alconna_options (default_params_parser an) !! i = Some (NSubcommand s')
    /\ alias_inv (regs ++ s_options s) (sub_params s').
Proof.
  intros Hi _ Hinv. unfold default_params_parser, parser_loop.
  cbn [alconna_options].
  destruct (loop_done_lookup_reg _
              {| lp_analyser := an; lp_require_len := 0; lp_done := [] |}
              i _ Hi) as (cp & ids & Hl).
  simpl in Hl. eexists. split; [exact Hl|].
  intros a. cbn [sub_params].
  apply (sub_loop_alias_entry (s_options s) _ regs a). exact (Hinv a).
Qed.

Lemma sub_params_compiled_witness :
  exists s',
    alconna_options (default_params_parser with_tool) !! 1 = Some (NSubcommand s')
    /\ sub_params s' !! "-v" = Some (PList [version; verbose]).
Proof.
  assert (Honce : forall j, j <> 1 ->
            alconna_options with_tool !! j <> Some (NSubcommand tool_subcommand)).
  { intros [|[|[|j]]] Hj; simpl; try discriminate. congruence. }
  assert (Hempty : alias_inv [] (sub_params tool_subcommand)).
  { intros a. simpl. rewrite lookup_empty. reflexivity. }
  destruct (sub_params_compiled with_tool 1 tool_subcommand [] eq_refl
              Honce Hempty) as (s' & Hl & Hinv).
  - exists s'. split; [exact Hl|].
    specialize (Hinv "-v").
    destruct (sub_params s' !! "-v") as [[li| |]|]; [|discriminate Hinv..].
    rewrite Hinv. reflexivity.
Defined.

Lemma top_options_app (l1 l2 : list Node) :
  top_options (l1 ++ l2) = top_options l1 ++ top_options l2.
Proof. unfold top_options. apply flat_map_app. Qed.

Lemma loop_alias_entry (l : list Node) (st : Loop) (regs : list Option)
    (a : string) :
  (forall s, NSubcommand s ∈ l -> s_name s <> a) ->
  alias_entry regs a (command_params (lp_analyser st) !! a) ->
  alias_entry (regs ++ top_options l) a
    (command_params (lp_analyser (fold_left parser_step l st)) !! a).
Proof.
  revert st regs. induction l as [|n l IH]; intros st regs Hno Hinv.
  - simpl. rewrite app_nil_r. exact Hinv.
  - change (n :: l) with ([n] ++ l). rewrite top_options_app, app_assoc.
    simpl fold_left. apply IH.
    + intros s Hs. apply Hno. right. exact Hs.
    + rewrite parser_step_table. apply alias_entry_setdefault.
      destruct n as [o|s]; simpl.
      * apply alias_entry_compile. exact Hinv.
      * rewrite app_nil_r, lookup_insert_ne; [exact Hinv|].
        apply Hno. left.
Qed.

(** X18.  For an alias that is the name of no top-level subcommand, the
    invariant carries over to [command_params] as a whole run leaves it:
    the entry lists exactly the top-level options declaring the alias (after
    those already registered), sorted by descending priority, equals in
    declaration order; Sentences put in between do not disturb it. *)
Theorem command_params_compiled
    (an : Analyser) (regs : list Option) (a : string) :
  (forall s, NSubcommand s ∈ alconna_options an -> s_name s <> a) ->
  alias_entry regs a (command_params an !! a) ->
  alias_entry (regs ++ top_options (alconna_options an)) a
    (command_params (default_params_parser an) !! a).
Proof.
  intros Hno Hinv. unfold default_params_parser, parser_loop.
  cbn [command_params].
  apply (loop_alias_entry (alconna_options an)
           {| lp_analyser := an; lp_require_len := 0; lp_done := [] |});
    assumption.
Qed.

Lemma command_params_compiled_witness :
  command_params (default_params_parser with_tool) !! "-v"
  = Some (PList [version; verbose]).
Proof.
  pose proof (command_params_compiled with_tool [] "-v") as H.
  unfold alias_entry in H.
  destruct (command_params (default_params_parser with_tool) !! "-v")
    as [[li| |]|] eqn:E.
  - rewrite H; [reflexivity| |reflexivity].
    intros s Hs. apply elem_of_cons in Hs as [Hs|Hs]; [discriminate|].
    apply elem_of_cons in Hs as [Hs|Hs]; [injection Hs as ->; discriminate|].
    apply list_elem_of_singleton in Hs. discriminate.
  - vm_compute in E. discriminate.
  - vm_compute in E. discriminate.
  - vm_compute in E. discriminate.
Defined.

(** X19.  A top-level subcommand whose name no later top-level node uses
    (as an option alias or as a subcommand name) is found in
    [command_params] under its name. *)
Theorem subcommand_entry (an : Analyser) (i : nat) (s : Subcommand) :
  alconna_options an !! i = Some (NSubcommand s) ->
  (forall j n, i < j -> alconna_options an !! j = Some n ->
     ~ names_node (s_name s) n) ->
  command_params (default_params_parser an) !! s_name s = Some (PSubcommand i).
Proof.
  intros Hi Hlater. unfold default_params_parser, parser_loop.
  cbn [command_params].
  rewrite <- (take_drop_middle _ _ _ Hi) at 1.
  rewrite fold_left_app. simpl.
  set (st := fold_left parser_step (take i (alconna_options an))
               {| lp_analyser := an; lp_require_len := 0; lp_done := [] |}).
  rewrite loop_untouched.
  - assert (Hlen : length (lp_done st) = i).
    { subst st. rewrite loop_done_length. simpl. rewrite length_take.
      apply lookup_lt_Some in Hi. lia. }
    rewrite parser_step_table, setdefault_lookup. simpl.
    rewrite lookup_insert_eq, Hlen. reflexivity.
  - intros n Hn. apply list_elem_of_lookup in Hn as [k Hk].
    rewrite lookup_drop in Hk. apply (Hlater (S i + k)); [lia|exact Hk].
Qed.

Lemma subcommand_entry_witness :
  command_params (default_params_parser with_tool) !! "tool"
  = Some (PSubcommand 1).
Proof.
  apply (subcommand_entry with_tool 1 tool_subcommand eq_refl).
  intros j n Hj Hn. destruct j as [|[|[|j]]]; try lia.
  - injection Hn as <-. simpl. unfold version. simpl.
    rewrite elem_of_union, !elem_of_singleton. intros [?|?]; discriminate.
  - discriminate Hn.
Defined.

(** ** [part_len] and [sub_part_len] once more *)

(** X26.  When the command has at least one top-level node, [part_len] after
    [default_params_parser] is [range] of the number of top-level nodes,
    plus one if main args are needed, plus the length of the longest
    requirement chain of a top-level node, whatever [part_len] was before. *)
Theorem part_len_with_options (an : Analyser) :
  alconna_options an <> [] ->
  part_len (default_params_parser an)
  = Some (range (length (alconna_options an)
                 + (if need_main_args an then 1 else 0)
                 + max_requires node_requires (alconna_options an))).
Proof.
  intros Hne. unfold default_params_parser, parser_loop. cbn [part_len].
  rewrite (loop_part_len _ _ Hne). simpl. rewrite Nat.max_0_r. reflexivity.
Qed.

Lemma part_len_with_options_witness :
  part_len (default_params_parser with_subcommand) = Some (range 4).
Proof.
  rewrite (part_len_with_options with_subcommand); [reflexivity|discriminate].
Defined.

(** X27.  Every top-level subcommand, also one without options, leaves
    [default_params_parser] at its position with its name and options as
    declared and with [sub_part_len] the [range] of the number of its
    options, plus one if it has args of its own, plus the length of the
    longest requirement chain among its options. *)
Theorem sub_part_len_always (an : Analyser) (i : nat) (s : Subcommand) :
  alconna_options an !! i = Some (NSubcommand s) ->
  exists s',
    alconna_options (default_params_parser an) !! i = Some (NSubcommand s')
    /\ s_name s' = s_name s
    /\ s_options s' = s_options s
    /\ sub_part_len s'
       = Some (range (length (s_options s)
                      + (if Nat.eqb (nargs s) 0 then 0 else 1)
                      + max_requires requires (s_options s))).
Proof.
  intros Hi. unfold default_params_parser, parser_loop. cbn [alconna_options].
  destruct (loop_done_lookup _
              {| lp_analyser := an; lp_require_len := 0; lp_done := [] |}
              i _ Hi) as (n' & Hl & s' & -> & Hname & Hopts & Hlen & _).
  exists s'. repeat (split; [assumption|]). exact Hlen.
Qed.

Lemma sub_part_len_always_witness :
  exists s',
    alconna_options (default_params_parser with_subcommand) !! 0
      = Some (NSubcommand s')
    /\ sub_part_len s' = Some (range 3).
Proof.
  destruct (sub_part_len_always with_subcommand 0 set_subcommand eq_refl)
    as (s' & Hl & _ & _ & Hlen).
  exists s'. split; [exact Hl|exact Hlen].
Defined.

(** ** The manager of output actions *)

Lemma get_remove_eq {V : Type} (k : string) (d : dict V) :
  get k (dict_remove k d) = None.
Proof.
  unfold dict_remove.
  rewrite (get_filter_key (fun k' => negb (String.eqb k k')) k d).
  rewrite String.eqb_refl. reflexivity.
Qed.

Lemma get_remove_ne {V : Type} (k k' : string) (d : dict V) :
  k <> k' -> get k' (dict_remove k d) = get k' d.
Proof.
  intros Hne. unfold dict_remove.
  rewrite (get_filter_key (fun x => negb (String.eqb k x)) k' d).
  rewrite (eqb_false_of_ne _ _ Hne). reflexivity.
Qed.

Lemma keys_set_present {V : Type} (k : string) (v v0 : V) (d : dict V) :
  get k d = Some v0 -> keys (set k v d) = keys d.
Proof.
  induction d as [|[k' v'] d IH]; simpl; [discriminate|].
  destruct (String.eqb k k') eqn:E; simpl; [reflexivity|].
  intros H. rewrite (IH H). reflexivity.
Qed.

Section OutputFacts.
Context {A G : Type}.
Implicit Types (m : OutputActionManager A G) (g : G) (a : A).

(** X20.  After [set(generator, command)], [get(command)] finds the action
    that [set] returned, and it carries the generator.  Its action is kept
    if the command had an output action before; otherwise it is the action
    cached for the command by [set_action], if any, which is removed from
    the cache; otherwise the global [send_action].  Other commands are not
    touched. *)
Theorem output_set_get m g (command : Datatypes.option string) :
  output_get command (output_set g command m).1 = Some (output_set g command m).2
  /\ generator (output_set g command m).2 = g
  /\ action (output_set g command m).2
     = match output_get command m with
       | Some old => action old
       | None =>
           match get (command_key command) (mgr_cache m) with
           | Some cached => cached
           | None => send_action m
           end
       end
  /\ (output_get command m = None ->
      get (command_key command) (mgr_cache (output_set g command m).1) = None)
  /\ (forall other,
        command_key other <> command_key command ->
        output_get other (output_set g command m).1 = output_get other m).
Proof.
  unfold output_get, output_set.
  destruct (get (command_key command) (outputs m)) as [old|] eqn:Eo;
    [|destruct (get (command_key command) (mgr_cache m)) as [c|] eqn:Ec];
    cbn [fst snd outputs mgr_cache generator action];
    (split; [apply get_set_eq|]); (split; [reflexivity|]);
    (split; [reflexivity|]); split.
  - discriminate.
  - intros other Hne. apply get_set_ne. exact Hne.
  - intros _. apply get_remove_eq.
  - intros other Hne. apply get_set_ne. exact Hne.
  - intros _. exact Ec.
  - intros other Hne. apply get_set_ne. exact Hne.
Qed.

(** X21.  [set_action(action, command)] for a named command changes the
    action of its output action when there is one and leaves the generator;
    when there is none, the action waits in the cache and a later [set] for
    the command takes it.  For no command, or [$global], it only replaces
    [send_action]: an output action that exists already, the global one too,
    keeps the action it has. *)
Theorem set_action_effect m a (c : string) :
  (c <> "$global" -> c <> "" ->
     (forall old, output_get (Some c) m = Some old ->
        output_get (Some c) (set_action a (Some c) m)
        = Some {| action := a; generator := generator old;
                  oa_cache := oa_cache old |})
     /\ (output_get (Some c) m = None ->
         forall g, action (output_set g (Some c) (set_action a (Some c) m)).2 = a))
  /\ (forall other,
        output_get other (set_action a None m) = output_get other m
        /\ output_get other (set_action a (Some "$global") m) = output_get other m).
Proof.
  split.
  - intros Hg He.
    assert (Hkey : command_key (Some c) = c)
      by (simpl; rewrite (eqb_false_of_ne _ _ He); reflexivity).
    unfold output_get, output_set, set_action. rewrite !Hkey.
    rewrite (eqb_false_of_ne _ _ Hg). split.
    + intros old Hold. rewrite Hold. cbn [outputs]. apply get_set_eq.
    + intros Hnone g. rewrite Hnone. cbn [outputs mgr_cache]. rewrite Hnone.
      rewrite get_set_eq. reflexivity.
  - intros other. split; reflexivity.
Qed.

(** X22.  [send] never registers an output action.  It succeeds only for
    a command that has one, and then leaves the set of commands, the cached
    actions, [send_action] and every other command's output action as they
    were.  For a command without an output action it always fails: with a
    generator the failure is the attribute access on line 46, where [action]
    is still [None] (so [set] is not reached); without one it is the
    KeyError of line 47. *)
Theorem send_outcome
    (handle : OutputAction A G -> bool -> dict string) m
    (command : Datatypes.option string) (gen : Datatypes.option G)
    (raise_exception : bool) :
  (forall m', send handle command gen raise_exception m = inl m' ->
     is_Some (output_get command m)
     /\ keys (outputs m') = keys (outputs m)
     /\ mgr_cache m' = mgr_cache m
     /\ send_action m' = send_action m
     /\ forall other, command_key other <> command_key command ->
          output_get other m' = output_get other m)
  /\ (output_get command m = None ->
      send handle command gen raise_exception m
      = inr (match gen with Some _ => AttributeError | None => KeyError command end)).
Proof.
  unfold send, output_get. split.
  - intros m'. destruct (get (command_key command) (outputs m)) as [old|] eqn:Eo.
    + intros [= <-]. cbn [outputs mgr_cache send_action].
      split; [eauto|]. split; [eapply keys_set_present; exact Eo|].
      split; [reflexivity|]. split; [reflexivity|].
      intros other Hne. apply get_set_ne. exact Hne.
    + destruct gen; discriminate.
  - intros ->. destruct gen; reflexivity.
Qed.
End OutputFacts.

Lemma output_set_get_witness :
  output_get (Some "greet") (output_set 3 (Some "greet") fresh_manager).1
  = Some {| action := 7; generator := 3; oa_cache := [] |}
  /\ get "greet" (mgr_cache (output_set 3 (Some "greet") fresh_manager).1) = None.
Proof.
  destruct (output_set_get fresh_manager 3 (Some "greet")) as (H1 & _ & _ & H4 & _).
  split; [rewrite H1; reflexivity|apply H4; reflexivity].
Defined.

Lemma set_action_effect_witness :
  action (output_set 3 (Some "hello")
            (set_action 9 (Some "hello") fresh_manager)).2 = 9.
Proof.
  destruct (set_action_effect fresh_manager 9 "hello") as [H _].
  destruct H as [_ H]; [discriminate|discriminate|].
  apply H. reflexivity.
Defined.

Lemma send_outcome_witness :
  send (fun _ _ => []) (Some "greet") (Some 3) false fresh_manager
  = inr AttributeError.
Proof.
  apply (proj2 (send_outcome (fun _ _ => []) fresh_manager (Some "greet")
                  (Some 3) false)).
  reflexivity.
Defined.

(** ** The node visitor *)

Lemma iget_iset_eq (k : nat) (n : BaseNode) (d : list (nat * BaseNode)) :
  iget k (iset k n d) = Some n.
Proof.
  induction d as [|[k' v'] d IH]; simpl.
  - rewrite Nat.eqb_refl. reflexivity.
  - destruct (Nat.eqb k k') eqn:E; simpl; rewrite E; [reflexivity|exact IH].
Qed.

Lemma iget_iset_ne (k k' : nat) (n : BaseNode) (d : list (nat * BaseNode)) :
  k <> k' -> iget k (iset k' n d) = iget k d.
Proof.
  intros Hne. induction d as [|[k2 v2] d IH]; simpl.
  - apply Nat.eqb_neq in Hne. rewrite Hne. reflexivity.
  - destruct (Nat.eqb k' k2) eqn:E; simpl.
    + apply Nat.eqb_eq in E. subst k2.
      apply Nat.eqb_neq in Hne. rewrite Hne. reflexivity.
    + destruct (Nat.eqb k k2); [reflexivity|exact IH].
Qed.

Lemma iget_some_key (k : nat) (d : list (nat * BaseNode)) :
  is_Some (iget k d) <-> k ∈ map fst d.
Proof.
  induction d as [|[k' v'] d IH]; simpl.
  - split; [intros [x Hx]; discriminate|intros H; inversion H].
  - destruct (Nat.eqb k k') eqn:E.
    + apply Nat.eqb_eq in E. subst. split; [intros _; left|eauto].
    + apply Nat.eqb_neq in E. rewrite IH, elem_of_cons. split; [auto|].
      intros [?|?]; [contradiction|assumption].
Qed.

Lemma iset_keys_present (k : nat) (n : BaseNode) (d : list (nat * BaseNode)) :
  k ∈ map fst d -> map fst (iset k n d) = map fst d.
Proof.
  induction d as [|[k' v'] d IH]; simpl; intros Hin; [inversion Hin|].
  destruct (Nat.eqb k k') eqn:E; simpl; [reflexivity|].
  apply Nat.eqb_neq in E. apply elem_of_cons in Hin as [?|Hin]; [contradiction|].
  rewrite (IH Hin). reflexivity.
Qed.

Lemma iset_keys_absent (k : nat) (n : BaseNode) (d : list (nat * BaseNode)) :
  k ∉ map fst d -> map fst (iset k n d) = map fst d ++ [k].
Proof.
  induction d as [|[k' v'] d IH]; simpl; intros Hin; [reflexivity|].
  destruct (Nat.eqb k k') eqn:E; simpl.
  - apply Nat.eqb_eq in E. subst. exfalso. apply Hin. left.
  - rewrite IH; [reflexivity|]. intros H. apply Hin. right. exact H.
Qed.

Lemma max_seq (a n : nat) : fold_right Nat.max 0 (seq a (S n)) = a + n.
Proof.
  revert a. induction n as [|n IH]; intros a.
  - simpl. lia.
  - change (seq a (S (S n))) with (a :: seq (S a) (S n)).
    cbn [fold_right]. rewrite IH. lia.
Qed.

Lemma index_of_lookup (x : string) (l : list string) (i : nat) :
  NoDup l -> l !! i = Some x -> index_of x l = Some i.
Proof.
  intros Hnd. revert i. induction Hnd as [|y l Hy Hnd IH]; intros i Hi.
  - discriminate.
  - destruct i as [|i]; simpl in *.
    + injection Hi as ->. rewrite String.eqb_refl. reflexivity.
    + destruct (String.eqb x y) eqn:E.
      * apply String.eqb_eq in E. subst. exfalso. apply Hy.
        apply list_elem_of_lookup. eauto.
      * rewrite (IH i Hi). reflexivity.
Qed.

Lemma index_of_elem (x : string) (l : list string) :
  x ∈ l -> exists i, index_of x l = Some i /\ l !! i = Some x.
Proof.
  induction l as [|y l IH]; intros Hin; [inversion Hin|]. simpl.
  destruct (String.eqb x y) eqn:E.
  - apply String.eqb_eq in E. subst. exists 0. split; reflexivity.
  - apply String.eqb_neq in E. apply elem_of_cons in Hin as [?|Hin]; [contradiction|].
    destruct (IH Hin) as (i & Hi & Hl). exists (S i). rewrite Hi. split; [reflexivity|exact Hl].
Qed.

(** *** The invariant *)

Lemma aligned_new_id (v : Visitor) :
  aligned v -> max_key (node_map v) + 1 = length (name_list v).
Proof.
  intros (_ & Hne & Hkeys & _). unfold max_key. rewrite Hkeys.
  destruct (name_list v) as [|x l]; [congruence|]. simpl length.
  rewrite max_seq. lia.
Qed.

Lemma aligned_has_key (v : Visitor) (i : nat) :
  aligned v -> i < length (name_list v) -> is_Some (iget i (node_map v)).
Proof.
  intros (_ & _ & Hkeys & _) Hi. apply iget_some_key. rewrite Hkeys.
  apply list_elem_of_In, in_seq. lia.
Qed.

Lemma register_aligned (v : Visitor) (label : string) (mk : nat -> BaseNode) :
  aligned v ->
  label ∉ name_list v ->
  (forall i, node_id (mk i) = i) ->
  (forall i, labels_node label (mk i)) ->
  aligned (register v label mk).1
  /\ (register v label mk).2 = length (name_list v)
  /\ name_list (register v label mk).1 = name_list v ++ [label].
Proof.
  intros Hal Hnew Hid Hlab.
  pose proof (aligned_new_id v Hal) as Hnid.
  destruct Hal as (Hnd & Hne & Hkeys & Hids & Hlabs).
  unfold register. rewrite Hnid. cbn [fst snd name_list node_map].
  split; [|split; reflexivity].
  assert (Hfresh : length (name_list v) ∉ map fst (node_map v)).
  { rewrite Hkeys. intros H. apply list_elem_of_In, in_seq in H. lia. }
  unfold aligned. cbn [name_list node_map]. split; [|split; [|split; [|split]]].
  - apply NoDup_app. split; [exact Hnd|]. split; [|apply NoDup_singleton].
    intros x Hx Hx'. apply list_elem_of_singleton in Hx'. subst. contradiction.
  - destruct (name_list v); discriminate.
  - rewrite iset_keys_absent by exact Hfresh.
    rewrite Hkeys, length_app. simpl. rewrite Nat.add_1_r, seq_S. reflexivity.
  - intros i n. destruct (decide (i = length (name_list v))) as [->|Hi].
    + rewrite iget_iset_eq. intros [= <-]. apply Hid.
    + rewrite iget_iset_ne by exact Hi. apply Hids.
  - intros i lab Hi Hl. destruct (decide (i = length (name_list v))) as [->|Hne'].
    + rewrite lookup_app_r in Hl by lia. rewrite Nat.sub_diag in Hl.
      injection Hl as <-. rewrite iget_iset_eq. eauto.
    + rewrite iget_iset_ne by exact Hne'.
      assert (Hlt : i < length (name_list v)).
      { apply lookup_lt_Some in Hl. rewrite length_app in Hl. simpl in Hl. lia. }
      rewrite lookup_app_l in Hl by exact Hlt. apply Hlabs; assumption.
Qed.

Lemma append_sub_aligned (parent child : nat) (v : Visitor) :
  aligned v -> parent < length (name_list v) ->
  exists v', append_sub parent child v = inl v'
             /\ aligned v' /\ name_list v' = name_list v.
Proof.
  intros Hal Hp. destruct (aligned_has_key v parent Hal Hp) as [n Hn].
  destruct Hal as (Hnd & Hne & Hkeys & Hids & Hlabs).
  unfold append_sub. rewrite Hn. eexists. split; [reflexivity|].
  split; [|reflexivity].
  unfold aligned. cbn [name_list node_map]. split; [exact Hnd|].
  split; [exact Hne|]. split; [|split].
  - rewrite iset_keys_present; [exact Hkeys|]. apply iget_some_key. eauto.
  - intros i n'. destruct (decide (i = parent)) as [->|Hi].
    + rewrite iget_iset_eq. intros [= <-]. simpl. apply Hids. exact Hn.
    + rewrite iget_iset_ne by exact Hi. apply Hids.
  - intros i lab Hi Hl. destruct (decide (i = parent)) as [->|Hne'].
    + rewrite iget_iset_eq. destruct (Hlabs parent lab Hi Hl) as (n0 & Hn0 & Hlab).
      rewrite Hn in Hn0. injection Hn0 as <-.
      eexists. split; [reflexivity|]. exact Hlab.
    + rewrite iget_iset_ne by exact Hne'. apply Hlabs; assumption.
Qed.

Lemma dup_not_nodup (l rest : list string) (x : string) :
  x ∈ l -> ~ NoDup (l ++ x :: rest).
Proof.
  intros Hin Hnd. apply NoDup_app in Hnd as (_ & Hdis & _).
  apply (Hdis x Hin). left.
Qed.

Lemma visit_sub_option_outcome (r : string) (new_id : nat) (v : Visitor)
    (o : Option) :
  aligned v -> new_id < length (name_list v) ->
  loop_outcome v [sub_label r o] (visit_sub_option r new_id v o).
Proof.
  intros Hal Hid. unfold visit_sub_option. fold (sub_label r o).
  destruct (bool_decide (sub_label r o ∈ name_list v)) eqn:E.
  - apply bool_decide_eq_true_1 in E. split; [|eauto].
    apply dup_not_nodup. exact E.
  - apply bool_decide_eq_false_1 in E.
    rewrite (surjective_pairing (register v _ _)).
    assert (Hlab : forall i, labels_node (sub_label r o)
              (mkBaseNode i TOption (name o) (Some (aliases o)) [])).
    { intros i. right. right. split; [reflexivity|]. exists r. reflexivity. }
    destruct (register_aligned v (sub_label r o)
                (fun i => mkBaseNode i TOption (name o) (Some (aliases o)) [])
                Hal E (fun i => eq_refl) Hlab) as (Hal1 & Hnid & Hnames).
    assert (Hlt : new_id < length (name_list (register v (sub_label r o)
                (fun i => mkBaseNode i TOption (name o) (Some (aliases o)) [])).1))
      by (rewrite Hnames, length_app; lia).
    destruct (append_sub_aligned new_id (register v (sub_label r o)
                (fun i => mkBaseNode i TOption (name o) (Some (aliases o)) [])).2
                _ Hal1 Hlt) as (v' & Hv' & Hal' & Hn').
    rewrite Hv'. split; [exact Hal'|]. rewrite Hn', Hnames. reflexivity.
Qed.

Lemma visit_loop_outcome {X : Type} (step : Visitor -> X -> Visitor + VisitError)
    (lab : X -> list string) (P : Visitor -> Prop) (l : list X) (v : Visitor) :
  (forall v x, aligned v -> P v -> loop_outcome v (lab x) (step v x)) ->
  (forall v v' x, P v -> step v x = inl v' -> P v') ->
  aligned v -> P v ->
  loop_outcome v (flat_map lab l) (visit_loop step l v).
Proof.
  intros Hstep HP. revert v. induction l as [|x l IH]; intros v Hal Hv.
  - simpl. split; [exact Hal|]. rewrite app_nil_r. reflexivity.
  - simpl. pose proof (Hstep v x Hal Hv) as Hx.
    destruct (step v x) as [v1|e] eqn:E; simpl.
    + destruct Hx as [Hal1 Hn1].
      pose proof (IH v1 Hal1 (HP v v1 x Hv E)) as Hrest.
      destruct (visit_loop step l v1) as [v2|e2]; simpl in *.
      * destruct Hrest as [Hal2 Hn2]. split; [exact Hal2|].
        rewrite Hn2, Hn1, <- app_assoc. reflexivity.
      * destruct Hrest as [Hnd He]. split; [|exact He].
        rewrite Hn1, <- app_assoc in Hnd. exact Hnd.
    + destruct Hx as [Hnd He]. split; [|exact He].
      intros H. apply Hnd. rewrite app_assoc in H.
      apply NoDup_app in H as (H & _ & _). exact H.
Qed.

Lemma flat_map_singleton {X Y : Type} (f : X -> Y) (l : list X) :
  flat_map (fun x => [f x]) l = map f l.
Proof. induction l as [|x l IH]; simpl; [reflexivity|rewrite IH; reflexivity]. Qed.

Lemma visit_sub_option_names (r : string) (new_id : nat) (v v' : Visitor)
    (o : Option) :
  visit_sub_option r new_id v o = inl v' ->
  length (name_list v) <= length (name_list v').
Proof.
  unfold visit_sub_option.
  destruct (bool_decide _); [discriminate|].
  rewrite (surjective_pairing (register v _ _)). unfold append_sub.
  destruct (iget _ _); [|discriminate]. intros [= <-].
  cbn [name_list register fst]. rewrite length_app. lia.
Qed.

Lemma visit_node_outcome (v : Visitor) (node : Node) :
  aligned v -> loop_outcome v (node_labels node) (visit_node v node).
Proof.
  intros Hal. destruct node as [o|s]; unfold visit_node, node_labels.
  - set (label := ("option:" ++ lstrip_dash (name o))%string).
    destruct (bool_decide (label ∈ name_list v)) eqn:E.
    + apply bool_decide_eq_true_1 in E. split; [|eauto].
      apply dup_not_nodup. exact E.
    + apply bool_decide_eq_false_1 in E.
      rewrite (surjective_pairing (register v _ _)).
      assert (Hlab : forall i, labels_node label
                (mkBaseNode i TOption (name o) (Some (aliases o)) [])).
      { intros i. left. split; reflexivity. }
      destruct (register_aligned v label
                  (fun i => mkBaseNode i TOption (name o) (Some (aliases o)) [])
                  Hal E (fun i => eq_refl) Hlab) as (Hal1 & Hnid & Hnames).
      assert (Hlt : 0 < length (name_list (register v label
                  (fun i => mkBaseNode i TOption (name o) (Some (aliases o)) [])).1))
        by (rewrite Hnames, length_app; simpl; lia).
      destruct (append_sub_aligned 0 (register v label
                  (fun i => mkBaseNode i TOption (name o) (Some (aliases o)) [])).2
                  _ Hal1 Hlt) as (v' & Hv' & Hal' & Hn').
      rewrite Hv'. split; [exact Hal'|]. rewrite Hn', Hnames. reflexivity.
  - set (real := lstrip_dash (s_name s)).
    set (label := ("subcommand:" ++ real)%string).
    destruct (bool_decide (label ∈ name_list v)) eqn:E.
    + apply bool_decide_eq_true_1 in E. split; [|eauto].
      apply dup_not_nodup. exact E.
    + apply bool_decide_eq_false_1 in E.
      rewrite (surjective_pairing (register v _ _)).
      assert (Hlab : forall i, labels_node label
                (mkBaseNode i TSubcommand (s_name s) None [])).
      { intros i. right. left. split; reflexivity. }
      destruct (register_aligned v label
                  (fun i => mkBaseNode i TSubcommand (s_name s) None [])
                  Hal E (fun i => eq_refl) Hlab) as (Hal1 & Hnid & Hnames).
      set (v1 := (register v label
                    (fun i => mkBaseNode i TSubcommand (s_name s) None [])).1) in *.
      set (new_id := (register v label
                    (fun i => mkBaseNode i TSubcommand (s_name s) None [])).2) in *.
      pose proof (visit_loop_outcome (visit_sub_option real new_id)
                    (fun o => [sub_label real o])
                    (fun w => new_id < length (name_list w))
                    (s_options s) v1) as Hloop.
      rewrite (flat_map_singleton (sub_label real)) in Hloop.
      assert (Hnew : new_id < length (name_list v1)).
      { rewrite Hnid, Hnames, length_app. simpl. lia. }
      specialize (Hloop
        (fun w x Hw Hlt => visit_sub_option_outcome real new_id w x Hw Hlt)
        (fun w w' x Hlt Hstep =>
           Nat.lt_le_trans _ _ _ Hlt (visit_sub_option_names real new_id w w' x Hstep))
        Hal1 Hnew).
      destruct (visit_loop (visit_sub_option real new_id) (s_options s) v1)
        as [v2|e]; cbn [vbind loop_outcome] in *.
      * destruct Hloop as [Hal2 Hn2].
        assert (Hlt : 0 < length (name_list v2))
          by (rewrite Hn2, Hnames, !length_app; simpl; lia).
        destruct (append_sub_aligned 0 new_id v2 Hal2 Hlt) as (v' & Hv' & Hal' & Hn').
        rewrite Hv'. split; [exact Hal'|].
        rewrite Hn', Hn2, Hnames, <- app_assoc. reflexivity.
      * destruct Hloop as [Hnd He]. split; [|exact He].
        rewrite Hnames, <- app_assoc in Hnd. exact Hnd.
Qed.

Lemma initial_aligned (nm : string) :
  aligned {| name_list := [nm];
             node_map := [(0, mkBaseNode 0 TCommand nm None [])] |}.
Proof.
  unfold aligned. cbn [name_list node_map]. split; [apply NoDup_singleton|].
  split; [discriminate|]. split; [reflexivity|]. split.
  - intros i n. simpl. destruct (Nat.eqb i 0) eqn:E; [|discriminate].
    apply Nat.eqb_eq in E. intros [= <-]. symmetry. exact E.
  - intros i lab Hi Hl. destruct i as [|i]; [lia|]. discriminate.
Qed.

Lemma constructor_outcome (nm : string) (nodes : list Node) :
  loop_outcome {| name_list := [nm];
                  node_map := [(0, mkBaseNode 0 TCommand nm None [])] |}
    (labels nodes) (AlconnaNodeVisitor nm nodes).
Proof.
  unfold AlconnaNodeVisitor, labels.
  apply (visit_loop_outcome visit_node node_labels (fun _ => True)).
  - intros v x Hal _. apply visit_node_outcome. exact Hal.
  - auto.
  - apply initial_aligned.
  - exact I.
Qed.

(** X23.  The constructor of the visitor succeeds exactly when the command
    name and the labels of the nodes ([option:<name>], [subcommand:<name>],
    [subcommand:<name>:<option>], names without leading dashes) are
    pairwise distinct; it then holds these labels, in order, behind the
    command name.  Otherwise it raises DuplicateCommand: so do two options
    that differ only in leading dashes. *)
Theorem visitor_constructor_outcome (nm : string) (nodes : list Node) :
  ((exists v, AlconnaNodeVisitor nm nodes = inl v) <-> NoDup (nm :: labels nodes))
  /\ (forall v, AlconnaNodeVisitor nm nodes = inl v ->
        name_list v = nm :: labels nodes)
  /\ (forall e, AlconnaNodeVisitor nm nodes = inr e ->
        exists t, e = DuplicateCommand t).
Proof.
  pose proof (constructor_outcome nm nodes) as H. unfold loop_outcome in H.
  cbn [name_list] in H.
  destruct (AlconnaNodeVisitor nm nodes) as [v|e].
  - destruct H as [Hal Hn]. split; [|split].
    + split; [|eauto]. intros _. change (nm :: labels nodes) with ([nm] ++ labels nodes).
      rewrite <- Hn. apply Hal.
    + intros v' [= <-]. exact Hn.
    + discriminate.
  - destruct H as [Hnd He]. split; [|split].
    + split; [intros [v Hv]; discriminate|]. intros Hno. contradiction.
    + discriminate.
    + intros e' [= <-]. exact He.
Qed.

Lemma visitor_constructor_outcome_witness :
  exists t, AlconnaNodeVisitor "cmd" [NOption dashdash_foo; NOption dash_foo]
            = inr (DuplicateCommand t).
Proof.
  destruct (AlconnaNodeVisitor "cmd" [NOption dashdash_foo; NOption dash_foo])
    as [v|e] eqn:E.
  - vm_compute in E. discriminate.
  - destruct (proj2 (proj2 (visitor_constructor_outcome "cmd"
                              [NOption dashdash_foo; NOption dash_foo])) e E)
      as [t ->].
    exists t. reflexivity.
Defined.

Lemma constructed_aligned (nm : string) (nodes : list Node) (v : Visitor) :
  AlconnaNodeVisitor nm nodes = inl v -> aligned v.
Proof.
  intros Hv. pose proof (constructor_outcome nm nodes) as H.
  rewrite Hv in H. apply H.
Qed.

Lemma aligned_node_at (v : Visitor) (i : nat) (label : string) :
  aligned v -> name_list v !! i = Some label ->
  exists n, node_at label v = inl n /\ iget i (node_map v) = Some n
            /\ node_id n = i.
Proof.
  intros Hal Hi. pose proof Hal as (Hnd & _ & _ & Hids & _).
  unfold node_at. rewrite (index_of_lookup _ _ _ Hnd Hi).
  destruct (aligned_has_key v i Hal (lookup_lt_Some _ _ _ Hi)) as [n Hn].
  rewrite Hn. exists n. split; [reflexivity|]. split; [reflexivity|].
  apply Hids. exact Hn.
Qed.

(** X24.  In a visitor that the constructor built, the position of a name
    in [name_list] is the id of its node: [name_list.index(label)] is the
    position, [node_map] has a node under it, that node has this id, and
    (for every position but that of the command) the name is a label of
    that node.  So [node_map[name_list.index(label)]] never fails for a
    name of the list. *)
Theorem visitor_positions_are_ids
    (nm : string) (nodes : list Node) (v : Visitor) (i : nat) (label : string) :
  AlconnaNodeVisitor nm nodes = inl v ->
  name_list v !! i = Some label ->
  index_of label (name_list v) = Some i
  /\ exists n, node_at label v = inl n
               /\ iget i (node_map v) = Some n
               /\ node_id n = i
               /\ (1 <= i -> labels_node label n).
Proof.
  intros Hv Hi. pose proof (constructed_aligned nm nodes v Hv) as Hal.
  pose proof Hal as (Hnd & _ & _ & _ & Hlabs).
  split; [apply index_of_lookup; assumption|].
  destruct (aligned_node_at v i label Hal Hi) as (n & Hat & Hn & Hid).
  exists n. repeat (split; [assumption|]).
  intros H1. destruct (Hlabs i label H1 Hi) as (n' & Hn' & Hlab).
  rewrite Hn in Hn'. injection Hn' as <-. exact Hlab.
Qed.

Lemma visitor_positions_are_ids_witness :
  exists v, AlconnaNodeVisitor "cmd" [NSubcommand tool_subcommand; NOption dash_foo]
            = inl v
            /\ index_of "option:foo" (name_list v) = Some 4.
Proof.
  destruct (AlconnaNodeVisitor "cmd" [NSubcommand tool_subcommand; NOption dash_foo])
    as [v|e] eqn:E.
  - exists v. split; [reflexivity|].
    apply (proj1 (visitor_positions_are_ids "cmd"
                    [NSubcommand tool_subcommand; NOption dash_foo] v 4
                    "option:foo" E
                    ltac:(vm_compute in E; injection E as <-; reflexivity))).
  - vm_compute in E. discriminate.
Defined.

(** *** [require] *)

Lemma node_at_known (v : Visitor) (label : string) :
  aligned v -> label ∈ name_list v ->
  exists n, node_at label v = inl n /\ known_node v n
            /\ exists i, name_list v !! i = Some label /\ node_id n = i.
Proof.
  intros Hal Hin. destruct (index_of_elem _ _ Hin) as (i & _ & Hi).
  destruct (aligned_node_at v i label Hal Hi) as (n & Hat & Hn & Hid).
  exists n. split; [exact Hat|]. split.
  - unfold known_node. rewrite Hid. exact Hn.
  - eauto.
Qed.

Lemma require_step_sound (v : Visitor) (c : string) (n : BaseNode) (part : string) :
  aligned v -> known_node v n -> step_sound v (require_step v (c, n) part).
Proof.
  intros Hal Hn. unfold require_step.
  destruct (String.eqb part "option" || String.eqb part "subcommand");
    [exact Hn|].
  assert (Hat : forall label, label ∈ name_list v ->
            step_sound v (vbind (node_at label v) (fun n0 => inl (label, n0)))).
  { intros label Hin.
    destruct (node_at_known v label Hal Hin) as (n0 & -> & Hk & _). exact Hk. }
  destruct (negb (String.eqb c "")).
  - destruct (bool_decide _) eqn:E; [|exact Hn].
    apply Hat. apply bool_decide_eq_true_1 in E. exact E.
  - destruct (bool_decide (("option:" ++ part)%string ∈ name_list v)) eqn:Eo;
      destruct (bool_decide (("subcommand:" ++ part)%string ∈ name_list v)) eqn:Es;
      cbn [andb].
    + eexists. reflexivity.
    + apply Hat. apply bool_decide_eq_true_1 in Eo. exact Eo.
    + apply Hat. apply bool_decide_eq_true_1 in Es. exact Es.
    + exact Hn.
Qed.

Lemma require_loop_sound (v : Visitor) (parts : list string) (c : string)
    (n : BaseNode) :
  aligned v -> known_node v n -> step_sound v (require_loop v parts (c, n)).
Proof.
  intros Hal. revert c n. induction parts as [|part parts IH]; intros c n Hn.
  - exact Hn.
  - cbn [require_loop]. pose proof (require_step_sound v c n part Hal Hn) as Hs.
    destruct (require_step v (c, n) part) as [[c' n']|e]; cbn [vbind];
      [|exact Hs].
    apply IH. exact Hs.
Qed.

(** X25.  On a visitor that the constructor built, [require] never fails on
    a lookup ([node_map[...]] or [name_list.index]): whatever the path, it
    returns a node of the visitor or raises the ambiguity error.  Without a
    path it returns the node with id 0.  A single unscoped segment that
    names both an option and a subcommand raises the error; one that names
    only an option returns that option's node (unless the command itself is
    called [option:<segment>]). *)
Theorem visitor_require_outcome (nm : string) (nodes : list Node) (v : Visitor) :
  AlconnaNodeVisitor nm nodes = inl v ->
  (forall path,
     match visitor_require path v with
     | inl n => known_node v n
     | inr e => exists t, e = AmbiguousName t
     end)
  /\ (exists root, visitor_require PathNone v = inl root /\ node_id root = 0)
  /\ (forall part, part <> "option" -> part <> "subcommand" ->
        ("option:" ++ part)%string ∈ name_list v ->
        (("subcommand:" ++ part)%string ∈ name_list v ->
           visitor_require (PathList [part]) v = inr (AmbiguousName part))
        /\ (("subcommand:" ++ part)%string ∉ name_list v ->
            nm <> ("option:" ++ part)%string ->
            exists n, visitor_require (PathList [part]) v = inl n
                      /\ node_type n = TOption
                      /\ lstrip_dash (node_name n) = part)).
Proof.
  intros Hv. pose proof (constructed_aligned nm nodes v Hv) as Hal.
  pose proof Hal as (Hnd & Hne & Hkeys & Hids & Hlabs).
  assert (Hnames : name_list v = nm :: labels nodes).
  { pose proof (constructor_outcome nm nodes) as H. rewrite Hv in H. apply H. }
  assert (Hroot : exists root, iget 0 (node_map v) = Some root /\ node_id root = 0).
  { destruct (aligned_has_key v 0 Hal) as [root Hr].
    - rewrite Hnames. simpl. lia.
    - exists root. split; [exact Hr|]. apply Hids. exact Hr. }
  destruct Hroot as (root & Hr & Hrid).
  assert (Hk : known_node v root) by (unfold known_node; rewrite Hrid; exact Hr).
  split; [|split].
  - intros path. unfold visitor_require. rewrite Hr.
    destruct path as [|s|l]; [exact Hk| |].
    + pose proof (require_loop_sound v (split_dot s) "" root Hal Hk) as Hs.
      destruct (require_loop v (split_dot s) ("", root)) as [st|e]; exact Hs.
    + pose proof (require_loop_sound v l "" root Hal Hk) as Hs.
      destruct (require_loop v l ("", root)) as [st|e]; exact Hs.
  - exists root. unfold visitor_require. rewrite Hr. split; [reflexivity|exact Hrid].
  - intros part Hpo Hps Hin.
    assert (Hhead : String.eqb part "option" || String.eqb part "subcommand" = false).
    { rewrite (eqb_false_of_ne _ _ Hpo), (eqb_false_of_ne _ _ Hps). reflexivity. }
    unfold visitor_require. rewrite Hr. cbn [require_loop require_step].
    rewrite Hhead. cbn [String.eqb negb].
    rewrite (bool_decide_eq_true_2 _ Hin). split.
    + intros Hsub. rewrite (bool_decide_eq_true_2 _ Hsub). reflexivity.
    + intros Hsub Hcmd. rewrite (bool_decide_eq_false_2 _ Hsub). cbn [andb].
      destruct (node_at_known v _ Hal Hin) as (n & Hat & _ & i & Hi & Hid).
      rewrite Hat. cbn [vbind snd]. exists n. split; [reflexivity|].
      assert (H1 : 1 <= i).
      { destruct i as [|i]; [|lia]. exfalso.
        rewrite Hnames in Hi. simpl in Hi. injection Hi as Heq. congruence. }
      destruct (Hlabs i _ H1 Hi) as (n' & Hn' & Hlab).
      assert (Hsame : n' = n).
      { destruct (aligned_node_at v i _ Hal Hi) as (n2 & Hat2 & Hn2 & _).
        rewrite Hat in Hat2. injection Hat2 as <-. congruence. }
      subst n'. destruct Hlab as [[Ht Hl]|[[Ht Hl]|[Ht [q Hl]]]].
      * split; [exact Ht|]. simpl in Hl. injection Hl as Hl. symmetry. exact Hl.
      * simpl in Hl. discriminate Hl.
      * simpl in Hl. discriminate Hl.
Qed.

Lemma visitor_require_outcome_witness :
  exists v n,
    AlconnaNodeVisitor "cmd" [NSubcommand tool_subcommand; NOption dash_foo] = inl v
    /\ visitor_require (PathList ["foo"]) v = inl n
    /\ node_type n = TOption
    /\ lstrip_dash (node_name n) = "foo".
Proof.
  destruct (AlconnaNodeVisitor "cmd" [NSubcommand tool_subcommand; NOption dash_foo])
    as [v|e] eqn:E; [|vm_compute in E; discriminate].
  destruct (proj2 (proj2 (visitor_require_outcome "cmd"
                            [NSubcommand tool_subcommand; NOption dash_foo] v E))
              "foo") as [_ H].
  - discriminate.
  - discriminate.
  - vm_compute in E. injection E as <-.
    apply list_elem_of_In. simpl. auto 10.
  - destruct H as (n & Hn & Ht & Hl).
    + vm_compute in E. injection E as <-. simpl.
      intros Hin. repeat (apply elem_of_cons in Hin as [Hin|Hin]; [discriminate|]).
      inversion Hin.
    + discriminate.
    + exists v, n. repeat split; assumption.
Defined.
